(** * Printer inventory reconciliation: a model of
      [CBS_printer_discrepency_finder.py] and its properties.

    The script reads two CSV sheets keyed by IP address, reports the IPs that
    occur more than once inside a sheet, and compares the two sheets: IPs in
    one sheet only, IPs in both with the same ID tag and serial number, and IPs
    in both with different ones.

    Modelling choices.
    - A Python [str] is the [string] of the bytes of its UTF-8 encoding: two
      texts are equal exactly when their encodings are, the empty text is the
      empty string, and the order of the encodings is the order of the texts.
    - [str.strip] and [str.upper] belong to Python, not to the script: they are
      the variables [strip] and [upper] of the section below, so that every
      statement holds of whatever these two functions do.  Where a statement
      needs a fact about them (trimming twice is trimming once, upper-casing
      leaves no letter [a] to [z]), the fact is a hypothesis of the statement.
      [ascii_strip] and [ascii_upper] are the two functions on 7-bit text; the
      statements are instantiated with them on sheets of 7-bit text.
    - [csv.DictReader] is taken at its interface: an opened sheet is the list of
      row dictionaries the reader yields, in file order, and the exception, if
      any, that ends the reading after them.  A row maps a column name to a
      cell; a cell is a text, or [None] where the line was shorter than the
      header.  [DictReader] builds these rows from a header and the lines
      after it: every row has the columns of the header and no other.
    - Exceptions are values of [exn]; a function that can raise returns a
      [result].  [print] appends a line to standard output, which is taken to
      accept every text.
    - [ip_to_rows] is iterated by the caller, so it is an association list in
      insertion order; [ip_dict] is only looked up, so it is a [gmap]; [ip_set]
      is a [gset]. *)

From stdpp Require Import base option list sorting strings pretty gmap fin_maps fin_sets.
From Stdlib Require Import Ascii Lia.

(** ** Text *)

(** A byte that continues a character of more than one byte. *)
Definition is_continuation (c : ascii) : bool :=
  let n := nat_of_ascii c in
  (128 <=? n) && (n <=? 191).

(** [len(s)]: the number of characters of a text. *)
Fixpoint str_len (s : string) : nat :=
  match s with
  | EmptyString => 0
  | String c s' => (if is_continuation c then 0 else 1) + str_len s'
  end.

Fixpoint spaces (n : nat) : string :=
  match n with
  | 0 => ""
  | S n' => String " "%char (spaces n')
  end.

(** The format [{s:<width}]: left-aligned, padded with spaces, never cut. *)
Definition ljust (width : nat) (s : string) : string :=
  s +:+ spaces (width - str_len s).

(** [", ".join(map(str, rows))] *)
Definition join_rows (rows : list nat) : string :=
  String.concat ", " (pretty <$> rows).

(** [sorted(ips)] on a set of texts. *)
Definition sorted (ips : gset string) : list string :=
  merge_sort String.le (elements ips).

Definition newline : ascii := "010"%char.

(** A lower-case letter [a] to [z], and a text that has one. *)
Definition is_lower (c : ascii) : bool :=
  let n := nat_of_ascii c in
  (97 <=? n) && (n <=? 122).

Fixpoint has_lower (s : string) : bool :=
  match s with
  | EmptyString => false
  | String c s' => is_lower c || has_lower s'
  end.

(** Two characters that are the same letter [a] to [z] in either case, or the
    same character. *)
Definition same_letter (a b : ascii) : bool :=
  let x := nat_of_ascii a in
  let y := nat_of_ascii b in
  (x =? y)
  || (65 <=? x) && (x <=? 90) && (y =? x + 32)
  || (65 <=? y) && (y <=? 90) && (x =? y + 32).

(** Equality of two texts up to the case of their letters, character by
    character. *)
Fixpoint eq_ignore_case (s t : string) : bool :=
  match s, t with
  | EmptyString, EmptyString => true
  | String a s', String b t' => same_letter a b && eq_ignore_case s' t'
  | _, _ => false
  end.

(** *** The two functions on 7-bit text *)

(** [str.isspace] on a 7-bit character: TAB, LF, VT, FF, CR, FS, GS, RS, US and
    the space. *)
Definition ascii_is_space (c : ascii) : bool :=
  let n := nat_of_ascii c in
  (9 <=? n) && (n <=? 13) || (28 <=? n) && (n <=? 32).

Fixpoint ascii_lstrip (s : string) : string :=
  match s with
  | EmptyString => EmptyString
  | String c s' => if ascii_is_space c then ascii_lstrip s' else s
  end.

Fixpoint ascii_rstrip (s : string) : string :=
  match s with
  | EmptyString => EmptyString
  | String c s' =>
      match ascii_rstrip s' with
      | EmptyString => if ascii_is_space c then EmptyString else String c EmptyString
      | r => String c r
      end
  end.

(** [s.strip()] for a text [s] of 7-bit characters. *)
Definition ascii_strip (s : string) : string := ascii_rstrip (ascii_lstrip s).

Definition ascii_upper_char (c : ascii) : ascii :=
  let n := nat_of_ascii c in
  if (97 <=? n) && (n <=? 122) then ascii_of_nat (n - 32) else c.

(** [s.upper()] for a text [s] of 7-bit characters. *)
Fixpoint ascii_upper (s : string) : string :=
  match s with
  | EmptyString => EmptyString
  | String c s' => String (ascii_upper_char c) (ascii_upper s')
  end.

(** ** Exceptions *)

Inductive exn : Type :=
  | FileNotFoundError (filename : string)
  | OSError (filename : string)
  | UnicodeDecodeError
  | CsvError
  | KeyError (column : string)
  | AttributeError.

Inductive result (A : Type) : Type :=
  | Ok (a : A)
  | Raise (e : exn).
Arguments Ok {A} a.
Arguments Raise {A} e.

Global Instance result_ret : MRet result := @Ok.
Global Instance result_bind : MBind result := λ A B f m,
  match m with
  | Ok a => f a
  | Raise e => Raise e
  end.

Definition raises {A} (m : result A) : Prop := ∃ e, m = Raise e.

(** A [for] loop that threads the loop state and stops at the first
    exception. *)
Fixpoint for_each {S A} (body : S → A → result S) (l : list A) (s : S) : result S :=
  match l with
  | [] => Ok s
  | x :: l' => s' ← body s x; for_each body l' s'
  end.

(** [enumerate(l, start)] *)
Fixpoint enumerate {A} (start : nat) (l : list A) : list (nat * A) :=
  match l with
  | [] => []
  | x :: l' => (start, x) :: enumerate (S start) l'
  end.

(** ** Sheets *)

(** A row dictionary of [csv.DictReader]. *)
Definition row : Type := gmap string (option string).

(** An opened sheet: the rows [csv.DictReader] yields, and the exception that
    ends the reading after them, if any (bytes that cannot be decoded, a line
    the [csv] module refuses, a failed read). *)
Record csv_reader : Type := Reader {
  reader_rows : list row;
  reader_error : option exn
}.

(** The files the script can open: opening a name raises (no such file, no
    permission), or gives a sheet. *)
Definition filesystem : Type := string → result csv_reader.

(** The row dictionary [csv.DictReader] makes of a line: the cells go under the
    names of the header in turn, and [None] under the names the line is too
    short for.  Cells beyond the header go under the key [None], which is no
    column name. *)
Fixpoint dict_row (fieldnames : list string) (cells : list string) (d : row) : row :=
  match fieldnames with
  | [] => d
  | name :: fieldnames' =>
      match cells with
      | [] => dict_row fieldnames' [] (<[name := None]> d)
      | cell :: cells' => dict_row fieldnames' cells' (<[name := Some cell]> d)
      end
  end.

(** The rows [csv.DictReader] yields for a header and the lines after it; a
    line without any field is skipped. *)
Definition DictReader (fieldnames : list string) (lines : list (list string))
    : list row :=
  (λ cells, dict_row fieldnames cells ∅) <$> filter (λ cells, cells ≠ []) lines.

(** ** The records the script builds *)

(** An entry of [ip_dict]. *)
Module Info.
Record t : Type := Build {
  rows : list nat;
  id_tag : string;
  serial_number : string
}.
End Info.

(** An entry of [duplicates_across]. *)
Module Match.
Record t : Type := Build {
  ip_address : string;
  cbs_master_rows : list nat;
  poco_sheet_rows : list nat;
  id_tag : string;
  serial_number : string
}.
End Match.

(** An entry of [mismatches]. *)
Module Mismatch.
Record t : Type := Build {
  ip_address : string;
  cbs_master_rows : list nat;
  poco_sheet_rows : list nat;
  file1_id_tag : string;
  file1_serial : string;
  file2_id_tag : string;
  file2_serial : string
}.
End Mismatch.

(** The four collections [compare_csvs] returns. *)
Record comparison : Type := Comparison {
  duplicates_across : list Match.t;
  mismatches : list Mismatch.t;
  cbs_only_ips : gset string;
  poco_only_ips : gset string
}.

(** ** The script

    [strip] is [str.strip] and [upper] is [str.upper]. *)

Section script.
Variables strip upper : string → string.

(** The loop [for row_number, row in enumerate(reader, start=2)]: the body runs
    on the rows the reader yields, then the reader's exception, if any, is
    raised. *)
Definition for_rows {S} (body : S → nat * row → result S) (reader : csv_reader)
    (s : S) : result S :=
  s' ← for_each body (enumerate 2 (reader_rows reader)) s;
  match reader_error reader with
  | Some e => Raise e
  | None => Ok s'
  end.

(** [row[column]] *)
Definition getitem (r : row) (column : string) : result (option string) :=
  match r !! column with
  | Some cell => Ok cell
  | None => Raise (KeyError column)
  end.

(** [cell.strip()]; [None] has no such method. *)
Definition cell_strip (cell : option string) : result string :=
  match cell with
  | Some s => Ok (strip s)
  | None => Raise AttributeError
  end.

(** *** Duplicates inside one sheet *)

(** [ip_to_rows.setdefault(ip, []).append(row_number)] on a dictionary kept in
    insertion order. *)
Fixpoint setdefault_append (ip : string) (row_number : nat)
    (ip_to_rows : list (string * list nat)) : list (string * list nat) :=
  match ip_to_rows with
  | [] => [(ip, [row_number])]
  | (k, rows) :: rest =>
      if decide (k = ip) then (k, rows ++ [row_number]) :: rest
      else (k, rows) :: setdefault_append ip row_number rest
  end.

(** The body of the loop of [find_duplicate_ips_in_csv]. *)
Definition find_duplicate_step (ip_to_rows : list (string * list nat))
    (item : nat * row) : result (list (string * list nat)) :=
  let '(row_number, r) := item in
  cell ← getitem r "IP Address";
  ip ← cell_strip cell;
  if decide (ip = "") then Ok ip_to_rows
  else Ok (setdefault_append ip row_number ip_to_rows).

Definition find_duplicate_ips_in_csv (fs : filesystem) (filename : string)
    : result (list (string * list nat)) :=
  reader ← fs filename;
  ip_to_rows ← for_rows find_duplicate_step reader [];
  Ok (filter (λ entry, 1 < length entry.2) ip_to_rows).

(** *** The index of one sheet *)

(** The body of the loop of [load_csv_as_dict]; the loop state is
    [(ip_dict, ip_set)]. *)
Definition load_step (state : gmap string Info.t * gset string)
    (item : nat * row) : result (gmap string Info.t * gset string) :=
  let '(ip_dict, ip_set) := state in
  let '(row_number, r) := item in
  cell ← getitem r "IP Address";
  ip ← cell_strip cell;
  if decide (ip = "") then Ok state
  else
    tag_cell ← getitem r "ID Tag";
    tag ← cell_strip tag_cell;
    let id_tag_upper := upper tag in
    serial_cell ← getitem r "Serial Number";
    serial ← cell_strip serial_cell;
    let serial_upper := upper serial in
    let ip_dict' :=
      match ip_dict !! ip with
      | None =>
          <[ip := Info.Build [row_number] id_tag_upper serial_upper]> ip_dict
      | Some info =>
          <[ip := Info.Build (Info.rows info ++ [row_number])
                             id_tag_upper serial_upper]> ip_dict
      end in
    Ok (ip_dict', ip_set ∪ {[ip]}).

Definition load_csv_as_dict (fs : filesystem) (filename : string)
    : result (gmap string Info.t * gset string) :=
  reader ← fs filename;
  for_rows load_step reader (∅, ∅).

(** *** Comparing two sheets *)

(** [d[ip]] on an index. *)
Definition dict_getitem (d : gmap string Info.t) (ip : string) : result Info.t :=
  match d !! ip with
  | Some info => Ok info
  | None => Raise (KeyError ip)
  end.

(** The body of the loop over [common_ips]; the loop state is
    [(duplicates_across, mismatches)]. *)
Definition compare_step (cbs_dict poco_dict : gmap string Info.t)
    (state : list Match.t * list Mismatch.t) (ip : string)
    : result (list Match.t * list Mismatch.t) :=
  let '(duplicates_across, mismatches) := state in
  cbs_info ← dict_getitem cbs_dict ip;
  poco_info ← dict_getitem poco_dict ip;
  if bool_decide (Info.id_tag cbs_info = Info.id_tag poco_info)
     && bool_decide (Info.serial_number cbs_info = Info.serial_number poco_info)
  then
    Ok (duplicates_across ++
          [Match.Build ip (Info.rows cbs_info) (Info.rows poco_info)
             (Info.id_tag cbs_info) (Info.serial_number cbs_info)],
        mismatches)
  else
    Ok (duplicates_across,
        mismatches ++
          [Mismatch.Build ip (Info.rows cbs_info) (Info.rows poco_info)
             (Info.id_tag cbs_info) (Info.serial_number cbs_info)
             (Info.id_tag poco_info) (Info.serial_number poco_info)]).

(** A Python set is iterated in an order the language leaves open; the model
    takes the order of [elements]. *)
Definition compare_csvs (fs : filesystem) (file1 file2 : string) : result comparison :=
  '(cbs_dict, cbs_set) ← load_csv_as_dict fs file1;
  '(poco_dict, poco_set) ← load_csv_as_dict fs file2;
  let cbs_only_ips := cbs_set ∖ poco_set in
  let poco_only_ips := poco_set ∖ cbs_set in
  let common_ips := cbs_set ∩ poco_set in
  '(duplicates_across, mismatches) ←
    for_each (compare_step cbs_dict poco_dict) (elements common_ips) ([], []);
  Ok (Comparison duplicates_across mismatches cbs_only_ips poco_only_ips).

(** *** The report *)

(** A computation that prints: it takes the lines printed so far and returns
    them extended, with a value or the exception that stopped it. *)
Definition io (A : Type) : Type := list string → list string * result A.

Global Instance io_ret : MRet io := λ A a out, (out, Ok a).
Global Instance io_bind : MBind io := λ A B f m out,
  match m out with
  | (out', Ok a) => f a out'
  | (out', Raise e) => (out', Raise e)
  end.

(** [print(line)] *)
Definition print (line : string) : io unit := λ out, (out ++ [line], Ok tt).

(** A call of a function that does not print. *)
Definition call {A} (m : result A) : io A := λ out, (out, m).

(** A [for] loop whose body prints. *)
Fixpoint for_print {A} (body : A → io unit) (l : list A) : io unit :=
  match l with
  | [] => mret tt
  | x :: l' => body x;; for_print body l'
  end.

Definition file1 : string :=
  "POCANTICO HILLS CSD Master Printer List - Copy(Meter Comparison).csv".
Definition file2 : string :=
  "Pocantico x CBS Printers Info - Copy(Sheet1).csv".

Definition print_duplicate (entry : string * list nat) : io unit :=
  let '(ip, rows) := entry in
  let rows_str := join_rows rows in
  print ("IP: " +:+ ljust 15 ip +:+ "  Rows: " +:+ rows_str).

Definition print_ip (ip : string) : io unit := print ("IP: " +:+ ip).

Definition print_match (d : Match.t) : io unit :=
  let cbs_rows_str := join_rows (Match.cbs_master_rows d) in
  let poco_rows_str := join_rows (Match.poco_sheet_rows d) in
  print ("IP: " +:+ ljust 15 (Match.ip_address d)
         +:+ "  CBS Rows: " +:+ ljust 6 cbs_rows_str
         +:+ "  Poco Rows: " +:+ ljust 6 poco_rows_str
         +:+ "  ID Tag: " +:+ ljust 10 (Match.id_tag d)
         +:+ "  Serial: " +:+ Match.serial_number d).

Definition print_mismatch (m : Mismatch.t) : io unit :=
  let cbs_rows_str := join_rows (Mismatch.cbs_master_rows m) in
  let poco_rows_str := join_rows (Mismatch.poco_sheet_rows m) in
  print ("IP: " +:+ ljust 15 (Mismatch.ip_address m)
         +:+ "  CBS Rows: " +:+ ljust 6 cbs_rows_str
         +:+ "  ID Tag: " +:+ ljust 10 (Mismatch.file1_id_tag m)
         +:+ "  Serial: " +:+ ljust 12 (Mismatch.file1_serial m)
         +:+ "  Poco Rows: " +:+ ljust 6 poco_rows_str
         +:+ "  ID Tag: " +:+ ljust 10 (Mismatch.file2_id_tag m)
         +:+ "  Serial: " +:+ Mismatch.file2_serial m).

(** One section of the report: its title, then one line per item, or the
    fallback line when there is none. *)
Definition section {A} (title : string) (items : list A) (line : A → io unit)
    (fallback : string) : io unit :=
  print title;;
  match items with
  | [] => print fallback
  | _ => for_print line items
  end.

(** The script's [__main__] block. *)
Definition main (fs : filesystem) : io unit :=
  cbs_duplicates_dict ← call (find_duplicate_ips_in_csv fs file1);
  poco_duplicates_dict ← call (find_duplicate_ips_in_csv fs file2);
  c ← call (compare_csvs fs file1 file2);
  section "=== DUPLICATE IPs *WITHIN* CBS MASTER ==="
    cbs_duplicates_dict print_duplicate
    "No duplicate IPs found within CBS Master.";;
  section (String newline "=== DUPLICATE IPs *WITHIN* POCO SHEET ===")
    poco_duplicates_dict print_duplicate
    "No duplicate IPs found within Poco sheet.";;
  section (String newline "=== IPs IN CBS MASTER BUT *NOT* IN POCO SHEET ===")
    (sorted (cbs_only_ips c)) print_ip
    "No IPs are exclusive to CBS Master.";;
  section (String newline "=== IPs IN POCO SHEET BUT *NOT* IN CBS MASTER ===")
    (sorted (poco_only_ips c)) print_ip
    "No IPs are exclusive to Poco sheet.";;
  section (String newline "=== CROSS-FILE EXACT MATCHES (SAME IP, SAME ID, SAME SERIAL) ===")
    (duplicates_across c) print_match
    "No exact matches across files.";;
  section (String newline "=== CROSS-FILE POTENTIAL CONFLICTS (SAME IP, DIFFERENT ID OR SERIAL) ===")
    (mismatches c) print_mismatch
    "No mismatches across files.".

(** The lines on standard output and the outcome of a run. *)
Definition run (fs : filesystem) : list string * result unit := main fs [].

(** ** What a sheet contains

    The rows of a sheet, read independently of the loops above: these are the
    notions the properties below are stated with. *)

(** The text in a column of a row, when the column exists and the cell is
    filled. *)
Definition text (r : row) (column : string) : option string :=
  match r !! column with
  | Some (Some s) => Some s
  | _ => None
  end.

(** A column that no row of a sheet has. *)
Definition absent (column : string) (reader : list row) : Prop :=
  Forall (λ r : row, r !! column = None) reader.

(** [d.get(k)] on a dictionary kept in insertion order. *)
Fixpoint assoc (k : string) (d : list (string * list nat)) : option (list nat) :=
  match d with
  | [] => None
  | (k', v) :: rest => if decide (k' = k) then Some v else assoc k rest
  end.

(** [sum(len(rows) for rows in d.values())] *)
Definition total_positions (d : list (string * list nat)) : nat :=
  sum_list (length <$> d.*2).

(** The position at the head of a position list. *)
Definition first_position (entry : string * list nat) : nat := hd 0 entry.2.

(** A sheet the detector reads to the end: every row has a filled "IP Address"
    cell. *)
Definition keyed (reader : list row) : Prop :=
  Forall (λ r, is_Some (text r "IP Address")) reader.

(** Two index entries that carry the same tag and the same serial. *)
Definition agree (a b : Info.t) : Prop :=
  Info.id_tag a = Info.id_tag b ∧ Info.serial_number a = Info.serial_number b.

Global Instance agree_dec a b : Decision (agree a b).
Proof. unfold agree. apply _. Defined.

(** The exact-match record of a key, when both indexes have it and agree. *)
Definition match_of (cbs_dict poco_dict : gmap string Info.t) (ip : string)
    : option Match.t :=
  a ← cbs_dict !! ip;
  b ← poco_dict !! ip;
  if decide (agree a b)
  then Some (Match.Build ip (Info.rows a) (Info.rows b)
               (Info.id_tag a) (Info.serial_number a))
  else None.

(** The conflict record of a key, when both indexes have it and disagree. *)
Definition mismatch_of (cbs_dict poco_dict : gmap string Info.t) (ip : string)
    : option Mismatch.t :=
  a ← cbs_dict !! ip;
  b ← poco_dict !! ip;
  if decide (agree a b) then None
  else Some (Mismatch.Build ip (Info.rows a) (Info.rows b)
               (Info.id_tag a) (Info.serial_number a)
               (Info.id_tag b) (Info.serial_number b)).

(** The exact-match records and the conflict records that carry key [k]. *)
Definition matches_for (k : string) (c : comparison) : list Match.t :=
  filter (λ d, Match.ip_address d = k) (duplicates_across c).

Definition mismatches_for (k : string) (c : comparison) : list Mismatch.t :=
  filter (λ m, Mismatch.ip_address m = k) (mismatches c).

(** An exact-match record and a conflict record with the two sheets in the
    other order. *)
Definition swap_match (d : Match.t) : Match.t :=
  Match.Build (Match.ip_address d) (Match.poco_sheet_rows d) (Match.cbs_master_rows d)
    (Match.id_tag d) (Match.serial_number d).

Definition swap_mismatch (m : Mismatch.t) : Mismatch.t :=
  Mismatch.Build (Mismatch.ip_address m)
    (Mismatch.poco_sheet_rows m) (Mismatch.cbs_master_rows m)
    (Mismatch.file2_id_tag m) (Mismatch.file2_serial m)
    (Mismatch.file1_id_tag m) (Mismatch.file1_serial m).

(** The lines of one section of the report: its title, then the lines of its
    items, or the fallback line when there is no item. *)
Definition section_text {A} (title : string) (items : list A) (fmt : A → string)
    (fallback : string) : list string :=
  title :: match items with
           | [] => [fallback]
           | _ => fmt <$> items
           end.

(** The exception the detector raises at a row: the "IP Address" column is
    missing from the row, or its cell is [None]. *)
Inductive key_raises (r : row) : exn → Prop :=
  | key_raises_missing :
      r !! "IP Address" = None → key_raises r (KeyError "IP Address")
  | key_raises_none :
      r !! "IP Address" = Some None → key_raises r AttributeError.

(** The key of a row: its trimmed IP address. *)
Definition key_of (r : row) : option string := strip <$> text r "IP Address".

(** A row whose key is not blank after trimming. *)
Definition nonblank (r : row) : Prop :=
  match key_of r with
  | Some k => k ≠ ""
  | None => False
  end.

Global Instance nonblank_dec r : Decision (nonblank r).
Proof. unfold nonblank. destruct (key_of r); apply _. Defined.

(** The numbered rows of a sheet that carry key [k], in file order.  The first
    data row has number 2: row 1 of the file is the header. *)
Definition occurrences (k : string) (reader : list row) : list (nat * row) :=
  filter (λ item, key_of item.2 = Some k) (enumerate 2 reader).

Definition positions_of (k : string) (reader : list row) : list nat :=
  (occurrences k reader).*1.

(** A sheet the loader reads to the end: every row has a filled "IP Address"
    cell, and the rows with a non-blank key have filled "ID Tag" and
    "Serial Number" cells. *)
Definition loadable (reader : list row) : Prop :=
  Forall (λ r, is_Some (text r "IP Address")
               ∧ (nonblank r →
                  is_Some (text r "ID Tag") ∧ is_Some (text r "Serial Number")))
         reader.

(** The index entry the rows of a sheet determine for key [k]: all positions of
    [k], with the normalized tag and serial of its last occurrence. *)
Definition entry_of (k : string) (reader : list row) : option Info.t :=
  '(_, r) ← last (occurrences k reader);
  tag ← text r "ID Tag";
  serial ← text r "Serial Number";
  Some (Info.Build (positions_of k reader) (upper (strip tag)) (upper (strip serial))).

(** The exception the loader raises at a row: as the detector, or, when the key
    is not blank, for the "ID Tag" cell and then for the "Serial Number"
    cell. *)
Inductive row_raises (r : row) : exn → Prop :=
  | row_raises_key e :
      key_raises r e → row_raises r e
  | row_raises_tag_missing :
      nonblank r → r !! "ID Tag" = None → row_raises r (KeyError "ID Tag")
  | row_raises_tag_none :
      nonblank r → r !! "ID Tag" = Some None → row_raises r AttributeError
  | row_raises_serial_missing :
      nonblank r → is_Some (text r "ID Tag") → r !! "Serial Number" = None →
      row_raises r (KeyError "Serial Number")
  | row_raises_serial_none :
      nonblank r → is_Some (text r "ID Tag") → r !! "Serial Number" = Some None →
      row_raises r AttributeError.

(** A source that stops the loader: it cannot be opened, the reading of it
    fails, or one of its rows raises. *)
Inductive fatal (fs : filesystem) (filename : string) : Prop :=
  | fatal_open e :
      fs filename = Raise e → fatal fs filename
  | fatal_read rows e :
      fs filename = Ok (Reader rows (Some e)) → fatal fs filename
  | fatal_row rows err r e :
      fs filename = Ok (Reader rows err) → r ∈ rows → row_raises r e →
      fatal fs filename.

(** Two rows with the same key and, up to surrounding white space and the case
    of letters, the same tag and serial. *)
Definition same_cells (r r' : row) : Prop :=
  key_of r = key_of r'
  ∧ (upper ∘ strip <$> text r "ID Tag") = (upper ∘ strip <$> text r' "ID Tag")
  ∧ (upper ∘ strip <$> text r "Serial Number")
    = (upper ∘ strip <$> text r' "Serial Number").

(** The exception that ends a run: that of the first call that raises, in the
    order in which the script makes its calls. *)
Definition first_error (fs : filesystem) (e : exn) : Prop :=
  find_duplicate_ips_in_csv fs file1 = Raise e
  ∨ (¬ raises (find_duplicate_ips_in_csv fs file1)
     ∧ find_duplicate_ips_in_csv fs file2 = Raise e)
  ∨ (¬ raises (find_duplicate_ips_in_csv fs file1)
     ∧ ¬ raises (find_duplicate_ips_in_csv fs file2)
     ∧ load_csv_as_dict fs file1 = Raise e)
  ∨ (¬ raises (find_duplicate_ips_in_csv fs file1)
     ∧ ¬ raises (find_duplicate_ips_in_csv fs file2)
     ∧ ¬ raises (load_csv_as_dict fs file1)
     ∧ load_csv_as_dict fs file2 = Raise e).

(** The index and the key set the loader's loop builds from the rows of a
    sheet, for the examples; empty when the loop raises. *)
Definition index_of (reader : list row) : gmap string Info.t * gset string :=
  match for_each load_step (enumerate 2 reader) (∅, ∅) with
  | Ok state => state
  | Raise _ => (∅, ∅)
  end.

(** *** Sheets for the examples *)

(** A row of three filled cells. *)
Definition mkrow (ip tag serial : string) : row :=
  <["IP Address" := Some ip]>
    (<["ID Tag" := Some tag]> (<["Serial Number" := Some serial]> ∅)).

(** The two sheets of a run, under the script's file names, each read to its
    end. *)
Definition sheets (a b : list row) : filesystem := λ filename,
  if decide (filename = file1) then Ok (Reader a None)
  else if decide (filename = file2) then Ok (Reader b None)
  else Raise (FileNotFoundError filename).

(** Two rows of one sheet with the same key, in rows 2 and 3 of the file. *)
Definition sheet_duplicate : list row :=
  [mkrow "10.0.0.1" "x1" "s1"; mkrow "10.0.0.1" "x2" "s2"].

(** Two sheets: a key repeated in the first, a blank key, tags that differ in
    case only, serials that differ, a key of the first sheet only, blank tags
    and serials, and two keys that differ in case only. *)
Definition sheet_cbs : list row :=
  [mkrow "10.0.0.1" "x1" "s1"; mkrow " 10.0.0.1" "x2" "s2"; mkrow "  " "t" "s";
   mkrow "10.0.0.5" "ABC" "111"; mkrow "10.0.0.9" "A1" "S1";
   mkrow "192.168.1.1" "T1" "Z1"; mkrow "10.0.0.7" "" ""; mkrow "printer-a" "P" "Q"].

Definition sheet_poco : list row :=
  [mkrow "10.0.0.5" "abc" "111"; mkrow "10.0.0.9" "A1" "S9"; mkrow "10.0.0.7" " " "";
   mkrow "10.0.0.1" "X2" "S2"; mkrow "PRINTER-A" "P" "Q"].

(** A sheet whose header has no "ID Tag" column. *)
Definition sheet_untagged : list row :=
  DictReader ["IP Address"; "Serial Number"] [["10.0.0.1"; "s1"]].

(** A sheet whose header has the "IP Address" column only, and whose only row
    has a blank key. *)
Definition sheet_blank_untagged : list row :=
  DictReader ["IP Address"] [["  "]].

(** A sheet with the three columns and no row. *)
Definition sheet_empty : list row :=
  DictReader ["IP Address"; "ID Tag"; "Serial Number"] [].
(** * Properties *)

(** ** Text *)

Lemma ascii_of_nat_inj a b : nat_of_ascii a = nat_of_ascii b → a = b.
Proof.
  intros H. by rewrite <- (ascii_nat_embedding a), <- (ascii_nat_embedding b), H.
Qed.

Lemma same_letter_lower_free a b :
  is_lower a = false → is_lower b = false → same_letter a b = true ↔ a = b.
Proof.
  unfold is_lower, same_letter. intros Ha Hb.
  apply andb_false_iff in Ha, Hb. rewrite !Nat.leb_gt in Ha, Hb.
  rewrite !orb_true_iff, !andb_true_iff, !Nat.leb_le, !Nat.eqb_eq. split.
  - intros H. apply ascii_of_nat_inj. lia.
  - intros ->. by left; left.
Qed.

(** On texts without a letter [a] to [z], equality up to case is equality. *)
Lemma eq_ignore_case_lower_free s t :
  has_lower s = false → has_lower t = false → eq_ignore_case s t = true ↔ s = t.
Proof.
  revert t. induction s as [|a s IH]; intros [|b t]; simpl; try done.
  intros [Ha Hs]%orb_false_iff [Hb Ht]%orb_false_iff.
  rewrite andb_true_iff, (IH t Hs Ht), (same_letter_lower_free a b Ha Hb).
  split; [intros [-> ->]; done | intros [= -> ->]; done].
Qed.

(** ** Loops *)

Lemma for_each_app {S A} (body : S → A → result S) l1 l2 s :
  for_each body (l1 ++ l2) s = (s' ← for_each body l1 s; for_each body l2 s').
Proof.
  revert s. induction l1 as [|x l1 IH]; intros s; simpl; [done|].
  destruct (body s x); simpl; [apply IH | done].
Qed.

Lemma for_each_snoc_Ok {S A} (body : S → A → result S) l x s s' :
  for_each body (l ++ [x]) s = Ok s' ↔
  ∃ s0, for_each body l s = Ok s0 ∧ body s0 x = Ok s'.
Proof.
  rewrite for_each_app.
  destruct (for_each body l s) as [s0|e]; simpl.
  - destruct (body s0 x) as [s1|e] eqn:E; simpl.
    + split; [intros [= <-]; eauto | intros (? & [= <-] & H); congruence].
    + split; [done | intros (? & [= <-] & H); congruence].
  - split; [done | by intros (s1 & [=] & _)].
Qed.

Lemma enumerate_app {A} n (l1 l2 : list A) :
  enumerate n (l1 ++ l2) = enumerate n l1 ++ enumerate (n + length l1) l2.
Proof.
  revert n. induction l1 as [|x l1 IH]; intros n; simpl.
  - by rewrite Nat.add_0_r.
  - rewrite IH. do 3 f_equal. lia.
Qed.

Lemma elem_of_enumerate {A} n (l : list A) i x :
  (i, x) ∈ enumerate n l ↔ n ≤ i ∧ l !! (i - n) = Some x.
Proof.
  revert n. induction l as [|y l IH]; intros n; simpl.
  - rewrite elem_of_nil. naive_solver.
  - rewrite elem_of_cons, IH. split.
    + intros [[= -> ->]|[Hle Hl]].
      * rewrite Nat.sub_diag. done.
      * split; [lia|]. by replace (i - n) with (S (i - S n)) by lia.
    + intros [Hle Hl]. destruct (decide (i = n)) as [->|Hne].
      * rewrite Nat.sub_diag in Hl. left. naive_solver.
      * right. split; [lia|].
        by replace (i - n) with (S (i - S n)) in Hl by lia.
Qed.

Lemma enumerate_fst_lt {A} n (l : list A) i x :
  (i, x) ∈ enumerate n l → i < n + length l.
Proof.
  rewrite elem_of_enumerate. intros [Hle Hl]. apply lookup_lt_Some in Hl. lia.
Qed.

Lemma for_rows_Ok {S} (body : S → nat * row → result S) rows err s s' :
  for_rows body (Reader rows err) s = Ok s' ↔
  err = None ∧ for_each body (enumerate 2 rows) s = Ok s'.
Proof.
  unfold for_rows. simpl.
  destruct (for_each body (enumerate 2 rows) s) as [s0|e]; simpl.
  - destruct err; split; [done|by intros [? _]|by intros [= ->]|by intros [_ [= ->]]].
  - split; [done|by intros [_ ?]].
Qed.

Lemma for_rows_Raise {S} (body : S → nat * row → result S) rows err s e :
  for_rows body (Reader rows err) s = Raise e ↔
  for_each body (enumerate 2 rows) s = Raise e
  ∨ ((∃ s', for_each body (enumerate 2 rows) s = Ok s') ∧ err = Some e).
Proof.
  unfold for_rows. simpl.
  destruct (for_each body (enumerate 2 rows) s) as [s0|e0]; simpl.
  - destruct err as [e1|].
    + split; [intros [= ->]; right; eauto|]. by intros [?|[_ [= ->]]].
    + split; [done|]. by intros [?|[_ ?]].
  - split; [by left|]. by intros [?|[[? ?] _]].
Qed.

(** ** Rows *)

Lemma dict_row_lookup fieldnames cells (d : row) column :
  column ∉ fieldnames → dict_row fieldnames cells d !! column = d !! column.
Proof.
  revert cells d. induction fieldnames as [|name fieldnames IH]; intros cells d Hnin;
    [done|].
  apply not_elem_of_cons in Hnin as [Hne Hnin].
  destruct cells as [|cell cells]; simpl; rewrite IH by done;
    by apply (lookup_insert_ne (M := gmap string)).
Qed.

(** The rows of a sheet have no column that the header lacks. *)
Lemma DictReader_absent fieldnames lines column :
  column ∉ fieldnames → absent column (DictReader fieldnames lines).
Proof.
  intros Hnin. unfold absent, DictReader. apply Forall_fmap, Forall_forall.
  intros cells _. simpl. by rewrite dict_row_lookup.
Qed.

Lemma getitem_strip_Ok r column s :
  (cell ← getitem r column; cell_strip cell) = Ok s ↔
  ∃ raw, text r column = Some raw ∧ s = strip raw.
Proof.
  unfold getitem, text. destruct (r !! column) as [[raw|]|]; simpl; naive_solver.
Qed.

Lemma getitem_strip_text r column raw :
  text r column = Some raw →
  (cell ← getitem r column; cell_strip cell) = Ok (strip raw).
Proof. intros H. apply getitem_strip_Ok. eauto. Qed.

Lemma nonblank_key r k : key_of r = Some k → nonblank r ↔ k ≠ "".
Proof. unfold nonblank. by intros ->. Qed.

Lemma occurrences_snoc k reader r :
  occurrences k (reader ++ [r]) =
  occurrences k reader ++
    (if decide (key_of r = Some k) then [(2 + length reader, r)] else []).
Proof.
  unfold occurrences. by rewrite enumerate_app, filter_app.
Qed.

Lemma positions_of_snoc k reader r :
  positions_of k (reader ++ [r]) =
  positions_of k reader ++
    (if decide (key_of r = Some k) then [2 + length reader] else []).
Proof.
  unfold positions_of. rewrite occurrences_snoc, fmap_app. f_equal.
  by destruct (decide _).
Qed.

Lemma elem_of_occurrences k reader i r :
  (i, r) ∈ occurrences k reader ↔
  2 ≤ i ∧ reader !! (i - 2) = Some r ∧ key_of r = Some k.
Proof.
  unfold occurrences. rewrite list_elem_of_filter, elem_of_enumerate. naive_solver.
Qed.

Lemma elem_of_positions_of k reader i :
  i ∈ positions_of k reader ↔
  2 ≤ i ∧ ∃ r, reader !! (i - 2) = Some r ∧ key_of r = Some k.
Proof.
  unfold positions_of. rewrite list_elem_of_fmap. split.
  - intros ([i' r] & -> & H). apply elem_of_occurrences in H. naive_solver.
  - intros (Hi & r & Hr & Hk). exists (i, r). split; [done|].
    by apply elem_of_occurrences.
Qed.

Lemma positions_of_lt k reader i :
  i ∈ positions_of k reader → i < 2 + length reader.
Proof.
  rewrite elem_of_positions_of. intros (Hi & r & Hr & _).
  apply lookup_lt_Some in Hr. lia.
Qed.

(** ** The duplicate detector *)

Lemma assoc_setdefault_append k ip n d :
  assoc k (setdefault_append ip n d) =
  if decide (k = ip) then Some (default [] (assoc ip d) ++ [n]) else assoc k d.
Proof.
  induction d as [|[k' v] d IH]; simpl.
  - repeat case_decide; naive_solver.
  - destruct (decide (k' = ip)) as [->|Hne]; simpl.
    + repeat case_decide; naive_solver.
    + rewrite IH. repeat case_decide; naive_solver.
Qed.

Lemma assoc_None k d : assoc k d = None ↔ k ∉ d.*1.
Proof.
  induction d as [|[k' v] d IH]; simpl.
  - rewrite elem_of_nil. naive_solver.
  - rewrite not_elem_of_cons. case_decide; naive_solver.
Qed.

Lemma assoc_elem_of k v d : NoDup d.*1 → (k, v) ∈ d ↔ assoc k d = Some v.
Proof.
  induction d as [|[k' v'] d IH]; simpl; intros Hnd.
  - rewrite elem_of_nil. naive_solver.
  - apply NoDup_cons in Hnd as [Hk' Hnd]. rewrite elem_of_cons, (IH Hnd).
    case_decide as Hk; subst.
    + split.
      * intros [[= ->]|H]; [done|]. apply assoc_None in Hk'. congruence.
      * intros [= ->]. by left.
    + split; [intros [[= -> ->]|H]; done | by right].
Qed.

Lemma keys_setdefault_append_old ip n d :
  ip ∈ d.*1 → (setdefault_append ip n d).*1 = d.*1.
Proof.
  induction d as [|[k' v] d IH]; cbn [setdefault_append]; intros Hin.
  - by apply elem_of_nil in Hin.
  - case_decide as Hk; [done|]. rewrite !fmap_cons. f_equal. apply IH.
    rewrite fmap_cons in Hin. apply elem_of_cons in Hin as [Heq|Hin]; [|done].
    simpl in Heq. congruence.
Qed.

Lemma keys_setdefault_append_new ip n d :
  ip ∉ d.*1 → (setdefault_append ip n d).*1 = d.*1 ++ [ip].
Proof.
  induction d as [|[k' v] d IH]; cbn [setdefault_append]; intros Hnin; [done|].
  rewrite fmap_cons in Hnin. apply not_elem_of_cons in Hnin as [Hne Hnin].
  simpl in Hne. rewrite decide_False by congruence.
  rewrite !fmap_cons, IH by done. done.
Qed.

Lemma NoDup_setdefault_append ip n d :
  NoDup d.*1 → NoDup (setdefault_append ip n d).*1.
Proof.
  intros Hnd. destruct (decide (ip ∈ d.*1)) as [Hin|Hnin].
  - by rewrite keys_setdefault_append_old.
  - rewrite keys_setdefault_append_new by done.
    apply NoDup_app. split_and!; [done| |apply NoDup_singleton].
    intros x Hx ->%list_elem_of_singleton. done.
Qed.

Lemma total_positions_cons k v d :
  total_positions ((k, v) :: d) = length v + total_positions d.
Proof. reflexivity. Qed.

Lemma total_setdefault_append ip n d :
  total_positions (setdefault_append ip n d) = S (total_positions d).
Proof.
  induction d as [|[k' v] d IH]; cbn [setdefault_append]; [done|].
  case_decide; rewrite !total_positions_cons.
  - rewrite length_app. simpl. lia.
  - rewrite IH. lia.
Qed.

Lemma find_duplicate_step_Ok d n r d' :
  find_duplicate_step d (n, r) = Ok d' ↔
  ∃ k, key_of r = Some k ∧
       d' = if decide (k = "") then d else setdefault_append k n d.
Proof.
  unfold find_duplicate_step, key_of, getitem, text.
  destruct (r !! "IP Address") as [[raw|]|]; simpl; [|naive_solver..].
  split.
  - intros H. exists (strip raw). split; [done|].
    destruct (decide (strip raw = "")); congruence.
  - intros (k & [= <-] & ->). by destruct (decide (strip raw = "")).
Qed.

(** The loop of the detector groups the positions of the non-blank keys. *)
Lemma for_each_find_duplicate_step reader d :
  for_each find_duplicate_step (enumerate 2 reader) [] = Ok d →
  NoDup d.*1
  ∧ (∀ k, assoc k d =
          if decide (k = "") then None
          else match positions_of k reader with [] => None | ps => Some ps end)
  ∧ total_positions d = length (filter nonblank reader).
Proof.
  revert d. induction reader as [|r reader IH] using rev_ind; intros d.
  - intros [= <-]. split_and!; [constructor| |done].
    intros k. simpl. by case_decide.
  - rewrite enumerate_app. simpl. rewrite for_each_snoc_Ok.
    intros (d0 & Hd0 & Hstep). apply IH in Hd0 as (Hnd & Hassoc & Htotal).
    apply find_duplicate_step_Ok in Hstep as (k0 & Hk0 & ->).
    rewrite filter_app, length_app, filter_cons, filter_nil.
    pose proof (nonblank_key r k0 Hk0) as Hnb.
    destruct (decide (k0 = "")) as [->|Hk0ne].
    + split_and!; [done| |].
      * intros k. rewrite positions_of_snoc, Hassoc, Hk0.
        case_decide as Hk; [done|].
        rewrite decide_False by congruence. by rewrite app_nil_r.
      * rewrite (decide_False (P := nonblank r)) by naive_solver. simpl. lia.
    + split_and!.
      * by apply NoDup_setdefault_append.
      * intros k. rewrite assoc_setdefault_append, positions_of_snoc, !Hassoc, Hk0.
        destruct (decide (k = k0)) as [->|Hne].
        -- rewrite !decide_False by done. rewrite decide_True by done.
           destruct (positions_of k0 reader); done.
        -- rewrite (decide_False (P := Some k0 = Some k)) by congruence.
           by rewrite app_nil_r.
      * rewrite total_setdefault_append.
        rewrite (decide_True (P := nonblank r)) by naive_solver. simpl. lia.
Qed.

Lemma for_each_find_duplicate_step_keyed reader :
  keyed reader → ∃ d, for_each find_duplicate_step (enumerate 2 reader) [] = Ok d.
Proof.
  induction reader as [|r reader IH] using rev_ind; intros Hk.
  - by exists [].
  - apply Forall_app in Hk as [Hk Hr]. apply Forall_singleton in Hr as [raw Hr].
    destruct (IH Hk) as [d0 Hd0].
    eexists. rewrite enumerate_app. simpl. apply for_each_snoc_Ok.
    exists d0. split; [done|]. apply find_duplicate_step_Ok.
    exists (strip raw). split; [|done]. unfold key_of. by rewrite Hr.
Qed.

(** ** The loader *)

Lemma load_step_Ok d s n r d' s' :
  load_step (d, s) (n, r) = Ok (d', s') ↔
  ∃ k, key_of r = Some k ∧
    ((k = "" ∧ d' = d ∧ s' = s)
     ∨ (k ≠ "" ∧ ∃ tag serial,
          text r "ID Tag" = Some tag ∧ text r "Serial Number" = Some serial ∧
          d' = <[k := Info.Build (default [] (Info.rows <$> d !! k) ++ [n])
                                 (upper (strip tag)) (upper (strip serial))]> d ∧
          s' = s ∪ {[k]})).
Proof.
  unfold load_step, key_of, getitem, text.
  destruct (r !! "IP Address") as [[raw|]|]; simpl; [|naive_solver..].
  destruct (decide (strip raw = "")) as [Hb|Hb].
  { split; [intros [= <- <-]; naive_solver | naive_solver]. }
  destruct (r !! "ID Tag") as [[tag|]|]; simpl; [|naive_solver..].
  destruct (r !! "Serial Number") as [[serial|]|]; simpl; [|naive_solver..].
  split.
  - intros [= <- <-]. exists (strip raw). split; [done|]. right. split; [done|].
    exists tag, serial. split_and!; try done. by destruct (d !! strip raw).
  - intros (k & [= <-] & [[? _]|(_ & tag' & serial' & [= <-] & [= <-] & -> & ->)]);
      [done|]. by destruct (d !! strip raw).
Qed.

Lemma load_step_Raise st n r e : load_step st (n, r) = Raise e ↔ row_raises r e.
Proof.
  destruct st as [d s]. unfold load_step, getitem. split.
  - destruct (r !! "IP Address") as [[raw|]|] eqn:Hip; simpl;
      [|intros [= <-]; by do 2 constructor..].
    assert (key_of r = Some (strip raw)) as Hkey
      by (unfold key_of, text; by rewrite Hip).
    destruct (decide (strip raw = "")) as [Hb|Hb]; [done|].
    assert (nonblank r) as Hnb by (by apply (nonblank_key r _ Hkey)).
    destruct (r !! "ID Tag") as [[tag|]|] eqn:Ht; simpl;
      [|intros [= <-]; by constructor..].
    assert (is_Some (text r "ID Tag")) as Htag by (unfold text; rewrite Ht; eauto).
    destruct (r !! "Serial Number") as [[serial|]|] eqn:Hs; simpl;
      [done|intros [= <-]; by constructor..].
  - intros Hr. destruct Hr as [e [Hip|Hip]|Hnb Ht|Hnb Ht|Hnb Htag Hs|Hnb Htag Hs];
      try (rewrite Hip; done).
    all: unfold nonblank, key_of, text in Hnb.
    all: destruct (r !! "IP Address") as [[raw|]|]; simpl in *; try done.
    all: rewrite decide_False by done.
    1,2: by rewrite Ht.
    all: unfold text in Htag; destruct (r !! "ID Tag") as [[tag|]|]; simpl;
      try (by destruct Htag); by rewrite Hs.
Qed.

Lemma entry_of_rows k reader info :
  entry_of k reader = Some info → Info.rows info = positions_of k reader.
Proof.
  unfold entry_of. destruct (last (occurrences k reader)) as [[n r]|]; simpl; [|done].
  destruct (text r "ID Tag"); simpl; [|done].
  destruct (text r "Serial Number"); simpl; [|done]. by intros [= <-].
Qed.

Lemma entry_of_snoc k reader r tag serial :
  key_of r = Some k → text r "ID Tag" = Some tag →
  text r "Serial Number" = Some serial →
  entry_of k (reader ++ [r]) =
  Some (Info.Build (positions_of k reader ++ [2 + length reader])
                   (upper (strip tag)) (upper (strip serial))).
Proof.
  intros Hk Ht Hs. unfold entry_of.
  rewrite positions_of_snoc, occurrences_snoc.
  rewrite !(decide_True (P := key_of r = Some k)) by done.
  rewrite last_snoc. simpl. by rewrite Ht, Hs.
Qed.

Lemma entry_of_snoc_ne k reader r :
  key_of r ≠ Some k → entry_of k (reader ++ [r]) = entry_of k reader.
Proof.
  intros Hk. unfold entry_of.
  rewrite positions_of_snoc, occurrences_snoc.
  rewrite !(decide_False (P := key_of r = Some k)) by done.
  by rewrite !app_nil_r.
Qed.

Lemma loadable_entry_of k reader :
  loadable reader → k ≠ "" → entry_of k reader = None → positions_of k reader = [].
Proof.
  intros Hl Hk. unfold entry_of, positions_of.
  destruct (last (occurrences k reader)) as [[n r]|] eqn:Hlast; simpl.
  - apply last_Some_elem_of, elem_of_occurrences in Hlast as (_ & Hr & Hkey).
    apply list_elem_of_lookup_2 in Hr.
    unfold loadable in Hl. rewrite Forall_forall in Hl.
    destruct (Hl r Hr) as [_ Hcells].
    destruct Hcells as [[tag ->] [serial ->]]; [by apply (nonblank_key r k)|done].
  - apply last_None in Hlast. by rewrite Hlast.
Qed.

(** The loop of the loader ends without an exception exactly on the loadable
    sheets. *)
Lemma for_each_load_step_loadable reader st :
  for_each load_step (enumerate 2 reader) (∅, ∅) = Ok st → loadable reader.
Proof.
  revert st. induction reader as [|r reader IH] using rev_ind; intros [d s].
  - intros _. constructor.
  - rewrite enumerate_app. simpl. rewrite for_each_snoc_Ok.
    intros ([d0 s0] & Hd0 & Hstep). apply Forall_app. split; [by eapply IH|].
    apply Forall_singleton. apply load_step_Ok in Hstep as (k & Hk & Hcase).
    unfold key_of in Hk. destruct (text r "IP Address") eqn:Hip; [|done].
    split; [done|]. intros Hnb. apply (nonblank_key r k) in Hnb.
    2:{ unfold key_of. by rewrite Hip. }
    destruct Hcase as [[? _]|(_ & tag & serial & -> & -> & _)]; [done|eauto].
Qed.

Lemma loadable_for_each_load_step reader :
  loadable reader → ∃ st, for_each load_step (enumerate 2 reader) (∅, ∅) = Ok st.
Proof.
  induction reader as [|r reader IH] using rev_ind; intros Hl.
  - by eexists.
  - apply Forall_app in Hl as [Hl Hr].
    apply Forall_singleton in Hr as [[raw Hip] Hcells].
    destruct (IH Hl) as [[d0 s0] Hd0].
    assert (key_of r = Some (strip raw)) as Hk by (unfold key_of; by rewrite Hip).
    destruct (decide (strip raw = "")) as [Hb|Hb].
    + exists (d0, s0). rewrite enumerate_app. simpl. apply for_each_snoc_Ok.
      exists (d0, s0). split; [done|]. apply load_step_Ok. naive_solver.
    + destruct Hcells as [[tag Ht] [serial Hs]]; [by apply (nonblank_key r _ Hk)|].
      eexists (_, _). rewrite enumerate_app. simpl. apply for_each_snoc_Ok.
      exists (d0, s0). split; [done|]. apply load_step_Ok.
      exists (strip raw). split; [done|]. right. split; [done|].
      exists tag, serial. split_and!; done.
Qed.

(** The loop of the loader computes, for every key, the entry the rows of the
    sheet determine; the key set is the domain of the index. *)
Lemma for_each_load_step reader d s :
  for_each load_step (enumerate 2 reader) (∅, ∅) = Ok (d, s) →
  s = dom d ∧ ∀ k, d !! k = if decide (k = "") then None else entry_of k reader.
Proof.
  revert d s. induction reader as [|r reader IH] using rev_ind; intros d s.
  - intros [= <- <-]. split; [by rewrite dom_empty_L|].
    intros k. rewrite lookup_empty. by case_decide.
  - rewrite enumerate_app. simpl. rewrite for_each_snoc_Ok.
    intros ([d0 s0] & Hd0 & Hstep).
    pose proof (for_each_load_step_loadable _ _ Hd0) as Hl.
    apply IH in Hd0 as [-> Hlook].
    apply load_step_Ok in Hstep
      as (k0 & Hk0 & [(-> & -> & ->)|(Hne & tag & serial & Ht & Hs & -> & ->)]).
    + split; [done|]. intros k. rewrite Hlook. case_decide; [done|].
      rewrite entry_of_snoc_ne; [done|congruence].
    + split; [rewrite dom_insert_L; set_solver|].
      intros k. destruct (decide (k = k0)) as [->|Hkk].
      * rewrite lookup_insert_eq, decide_False by done.
        rewrite (entry_of_snoc _ _ _ tag serial) by done.
        rewrite Hlook, decide_False by done.
        destruct (entry_of k0 reader) as [info|] eqn:He; simpl.
        -- by rewrite (entry_of_rows _ _ _ He).
        -- by rewrite (loadable_entry_of k0 reader).
      * rewrite lookup_insert_ne by done. rewrite Hlook.
        case_decide; [done|]. rewrite entry_of_snoc_ne; [done|congruence].
Qed.

(** ** The comparison *)

Lemma load_csv_as_dict_Ok fs filename st :
  load_csv_as_dict fs filename = Ok st ↔
  ∃ reader, fs filename = Ok (Reader reader None)
            ∧ for_each load_step (enumerate 2 reader) (∅, ∅) = Ok st.
Proof.
  unfold load_csv_as_dict. destruct (fs filename) as [[rows err]|e]; simpl.
  - rewrite for_rows_Ok. split.
    + intros [-> H]. by exists rows.
    + by intros (? & [= <-] & ?).
  - split; [done|]. by intros (? & [=] & _).
Qed.

Lemma find_duplicate_ips_in_csv_Ok fs filename dups :
  find_duplicate_ips_in_csv fs filename = Ok dups ↔
  ∃ reader d, fs filename = Ok (Reader reader None)
    ∧ for_each find_duplicate_step (enumerate 2 reader) [] = Ok d
    ∧ dups = filter (λ entry, 1 < length entry.2) d.
Proof.
  unfold find_duplicate_ips_in_csv.
  destruct (fs filename) as [[rows err]|e]; simpl.
  2:{ split; [done|]. by intros (? & ? & [=] & _). }
  destruct (for_rows find_duplicate_step (Reader rows err) []) as [d|e] eqn:E; simpl.
  - apply for_rows_Ok in E as [-> E]. split.
    + intros [= <-]. by exists rows, d.
    + intros (? & d' & [= <-] & Hd' & ->). congruence.
  - split; [done|]. intros (? & d' & [= <- ->] & Hd' & _).
    assert (for_rows find_duplicate_step (Reader rows None) [] = Ok d') as E'
      by (by apply for_rows_Ok).
    congruence.
Qed.

Section compare_loop.
Variables cbs_dict poco_dict : gmap string Info.t.

Lemma match_of_ip ip d : match_of cbs_dict poco_dict ip = Some d → Match.ip_address d = ip.
Proof.
  unfold match_of. destruct (cbs_dict !! ip) as [a|]; simpl; [|done].
  destruct (poco_dict !! ip) as [b|]; simpl; [|done].
  case_decide; [|done]. by intros [= <-].
Qed.

Lemma mismatch_of_ip ip m :
  mismatch_of cbs_dict poco_dict ip = Some m → Mismatch.ip_address m = ip.
Proof.
  unfold mismatch_of. destruct (cbs_dict !! ip) as [a|]; simpl; [|done].
  destruct (poco_dict !! ip) as [b|]; simpl; [|done].
  case_decide; [done|]. by intros [= <-].
Qed.

Lemma compare_step_Ok ds ms ip a b :
  cbs_dict !! ip = Some a → poco_dict !! ip = Some b →
  compare_step cbs_dict poco_dict (ds, ms) ip =
  Ok (ds ++ option_list (match_of cbs_dict poco_dict ip),
      ms ++ option_list (mismatch_of cbs_dict poco_dict ip)).
Proof.
  intros Ha Hb. unfold compare_step, dict_getitem, match_of, mismatch_of.
  rewrite Ha, Hb. simpl.
  destruct (decide (agree a b)) as [[Ht Hs]|Hn].
  - rewrite !bool_decide_eq_true_2 by done. simpl. by rewrite app_nil_r.
  - assert (bool_decide (Info.id_tag a = Info.id_tag b)
            && bool_decide (Info.serial_number a = Info.serial_number b) = false)
      as ->.
    { apply andb_false_iff. rewrite !bool_decide_eq_false. unfold agree in Hn.
      destruct (decide (Info.id_tag a = Info.id_tag b)); [right|left]; tauto. }
    simpl. by rewrite app_nil_r.
Qed.

(** The loop over the common keys never raises, and files every key once. *)
Lemma for_each_compare_step l ds ms :
  (∀ ip, ip ∈ l → is_Some (cbs_dict !! ip) ∧ is_Some (poco_dict !! ip)) →
  for_each (compare_step cbs_dict poco_dict) l (ds, ms) =
  Ok (ds ++ omap (match_of cbs_dict poco_dict) l,
      ms ++ omap (mismatch_of cbs_dict poco_dict) l).
Proof.
  revert ds ms. induction l as [|ip l IH]; intros ds ms Hl.
  - simpl. by rewrite !app_nil_r.
  - destruct (Hl ip) as [[a Ha] [b Hb]]; [by left|].
    cbn [for_each]. rewrite (compare_step_Ok _ _ _ a b) by done. simpl.
    rewrite IH by (intros; apply Hl; by right).
    unfold match_of, mismatch_of. rewrite Ha, Hb. simpl.
    case_decide; simpl; by rewrite <- !app_assoc.
Qed.
End compare_loop.

Lemma filter_omap_key {B} (key : B → string) (f : string → option B) l k :
  (∀ ip b, f ip = Some b → key b = ip) → NoDup l →
  filter (λ b, key b = k) (omap f l) = if decide (k ∈ l) then option_list (f k) else [].
Proof.
  intros Hkey. induction l as [|ip l IH]; intros Hnd.
  - rewrite decide_False by apply not_elem_of_nil. done.
  - apply NoDup_cons in Hnd as [Hip Hnd]. cbn [omap list_omap].
    specialize (IH Hnd).
    destruct (decide (k = ip)) as [->|Hne].
    + rewrite decide_True by (by left).
      rewrite decide_False in IH by done.
      destruct (f ip) as [b|] eqn:Hf; simpl; [|done].
      rewrite filter_cons, decide_True by eauto.
      by rewrite IH.
    + assert ((if decide (k ∈ ip :: l) then option_list (f k) else [])
              = filter (λ b, key b = k) (omap f l)) as ->.
      { rewrite IH. destruct (decide (k ∈ l)).
        - rewrite decide_True by (by right). done.
        - rewrite decide_False; [done|]. rewrite not_elem_of_cons. done. }
      destruct (f ip) as [b|] eqn:Hf; [|done].
      rewrite filter_cons, decide_False; [done|].
      rewrite (Hkey _ _ Hf). congruence.
Qed.

(** [compare_csvs] on two sheets that load: it does not raise, and its four
    collections are these. *)
Lemma compare_csvs_Ok fs name1 name2 cbs_dict cbs_set poco_dict poco_set :
  load_csv_as_dict fs name1 = Ok (cbs_dict, cbs_set) →
  load_csv_as_dict fs name2 = Ok (poco_dict, poco_set) →
  compare_csvs fs name1 name2 =
  Ok (Comparison (omap (match_of cbs_dict poco_dict) (elements (cbs_set ∩ poco_set)))
                 (omap (mismatch_of cbs_dict poco_dict) (elements (cbs_set ∩ poco_set)))
                 (cbs_set ∖ poco_set) (poco_set ∖ cbs_set)).
Proof.
  intros H1 H2. unfold compare_csvs. rewrite H1, H2. simpl.
  apply load_csv_as_dict_Ok in H1 as (r1 & _ & [-> _]%for_each_load_step).
  apply load_csv_as_dict_Ok in H2 as (r2 & _ & [-> _]%for_each_load_step).
  rewrite for_each_compare_step; [done|].
  intros ip Hip%elem_of_elements. rewrite <- !elem_of_dom. set_solver.
Qed.

(** ** Claims about the duplicate detector *)

Lemma NoDup_filter_keys (P : string * list nat → Prop) `{!∀ x, Decision (P x)} d :
  NoDup d.*1 → NoDup (filter P d).*1.
Proof.
  induction d as [|[k v] d IH]; [done|]. rewrite fmap_cons, NoDup_cons.
  intros [Hk Hnd]. rewrite filter_cons. case_decide; [|by apply IH].
  rewrite fmap_cons. apply NoDup_cons. split; [|by apply IH].
  intros ([k' v'] & Heq & Hin%list_elem_of_filter)%list_elem_of_fmap.
  simpl in Heq. subst k'. apply Hk, list_elem_of_fmap.
  exists (k, v'). split; [done|]. by destruct Hin.
Qed.

Lemma total_positions_filter (P : string * list nat → Prop) `{!∀ x, Decision (P x)} d :
  total_positions (filter P d) ≤ total_positions d
  ∧ (total_positions (filter P d) = total_positions d →
     ∀ k ps, (k, ps) ∈ d → ps ≠ [] → P (k, ps)).
Proof.
  induction d as [|[k v] d [IHle IHeq]].
  - split; [done|]. intros _ k ps Hin. by apply elem_of_nil in Hin.
  - rewrite filter_cons. destruct (decide (P (k, v))) as [HP|HP];
      rewrite ?total_positions_cons.
    + split; [lia|]. intros Heq k' ps [[= -> ->]|Hin]%elem_of_cons Hps; [done|].
      apply IHeq; [lia|done..].
    + split; [lia|]. intros Heq k' ps [[= -> ->]|Hin]%elem_of_cons Hps.
      * destruct v; [done|]. simpl in Heq. lia.
      * apply IHeq; [lia|done..].
Qed.

(** What the detector returns on a sheet it reads to the end. *)
Lemma find_duplicate_ips_in_csv_keyed fs filename reader :
  fs filename = Ok (Reader reader None) → keyed reader →
  ∃ dups, find_duplicate_ips_in_csv fs filename = Ok dups
    ∧ NoDup dups.*1
    ∧ ∀ k ps, (k, ps) ∈ dups ↔
              k ≠ "" ∧ ps = positions_of k reader ∧ 2 ≤ length ps.
Proof.
  intros Hfs Hkeyed.
  destruct (for_each_find_duplicate_step_keyed reader Hkeyed) as [d Hd].
  pose proof (for_each_find_duplicate_step reader d Hd) as (Hnd & Hassoc & _).
  exists (filter (λ entry, 1 < length entry.2) d). split_and!.
  - apply find_duplicate_ips_in_csv_Ok. by exists reader, d.
  - by apply NoDup_filter_keys.
  - intros k ps. rewrite list_elem_of_filter, (assoc_elem_of _ _ _ Hnd), Hassoc.
    simpl. case_decide as Hk.
    + split; [by intros [_ ?]|by intros [? _]].
    + destruct (positions_of k reader) as [|n l] eqn:Hps.
      * split; [by intros [_ ?]|]. intros (_ & -> & Hlen). simpl in Hlen. lia.
      * split.
        -- intros [Hlen [= <-]]. split_and!; [done..|lia].
        -- intros (_ & -> & Hlen). split; [lia|done].
Qed.

Lemma lookup_row_insert (r : row) column cell :
  <[column := cell]> r !! column = Some cell.
Proof. apply (lookup_insert_eq (M := gmap string)). Qed.

Lemma text_mkrow ip tag serial : text (mkrow ip tag serial) "IP Address" = Some ip.
Proof. unfold text, mkrow. by rewrite lookup_row_insert. Qed.

Lemma find_duplicate_step_mkrow d n ip tag serial :
  find_duplicate_step d (n, mkrow ip tag serial)
  = if decide (strip ip = "") then Ok d else Ok (setdefault_append (strip ip) n d).
Proof.
  unfold find_duplicate_step, getitem, mkrow. by rewrite lookup_row_insert.
Qed.

(** C4 — For every sheet, the duplicate detector returns exactly the mapping
    from each key that occurs at least twice to the full ordered list of the
    positions where it occurs; positions count from 2 for the first data row.
    On the sheet whose rows 2 and 3 both carry key 10.0.0.1, a text that
    trimming leaves as it is, the result is {10.0.0.1: [2, 3]}. *)
Theorem find_duplicate_ips_in_csv_positions :
  (∀ fs filename reader,
     fs filename = Ok (Reader reader None) → keyed reader →
     ∃ dups, find_duplicate_ips_in_csv fs filename = Ok dups
       ∧ NoDup dups.*1
       ∧ ∀ k ps, (k, ps) ∈ dups ↔
                 k ≠ "" ∧ ps = positions_of k reader ∧ 2 ≤ length ps)
  ∧ (strip "10.0.0.1" = "10.0.0.1" →
     positions_of "10.0.0.1" sheet_duplicate = [2; 3]
     ∧ find_duplicate_ips_in_csv (sheets sheet_duplicate []) file1
       = Ok [("10.0.0.1", [2; 3])]).
Proof.
  split; [intros fs filename reader; apply find_duplicate_ips_in_csv_keyed|].
  intros Hs. split.
  - unfold positions_of, occurrences, sheet_duplicate, key_of. cbn [enumerate].
    rewrite !filter_cons, filter_nil. cbn [snd]. rewrite !text_mkrow. simpl.
    rewrite Hs. by rewrite !decide_True.
  - unfold find_duplicate_ips_in_csv.
    assert (sheets sheet_duplicate [] file1 = Ok (Reader sheet_duplicate None)) as ->
      by (unfold sheets; by rewrite decide_True).
    unfold for_rows, sheet_duplicate. cbn [mbind result_bind reader_rows enumerate for_each].
    rewrite find_duplicate_step_mkrow, Hs, decide_False by done.
    cbn [mbind result_bind setdefault_append].
    rewrite find_duplicate_step_mkrow, Hs, decide_False by done.
    cbn [mbind result_bind setdefault_append reader_error].
    rewrite decide_True by done. simpl.
    rewrite filter_cons, decide_True by (simpl; lia). done.
Qed.

(** C6 — For every sheet, the position lists in the detector's output have at
    most as many positions in total as the sheet has rows with a non-blank key,
    and when the two numbers are equal every non-blank key of the sheet occurs
    at least twice. *)
Theorem duplicate_positions_bound fs filename reader :
  fs filename = Ok (Reader reader None) → keyed reader →
  ∃ dups, find_duplicate_ips_in_csv fs filename = Ok dups
    ∧ total_positions dups ≤ length (filter nonblank reader)
    ∧ (total_positions dups = length (filter nonblank reader) →
       ∀ r k, r ∈ reader → key_of r = Some k → k ≠ "" →
              2 ≤ length (positions_of k reader)).
Proof.
  intros Hfs Hkeyed.
  destruct (for_each_find_duplicate_step_keyed reader Hkeyed) as [d Hd].
  pose proof (for_each_find_duplicate_step reader d Hd) as (Hnd & Hassoc & Htotal).
  pose proof (total_positions_filter (λ entry, 1 < length entry.2) d) as [Hle Heq].
  exists (filter (λ entry, 1 < length entry.2) d). split_and!.
  - apply find_duplicate_ips_in_csv_Ok. by exists reader, d.
  - lia.
  - intros Hsame r k Hr Hkey Hk.
    apply list_elem_of_lookup in Hr as [i Hi].
    assert (2 + i ∈ positions_of k reader) as Hpos.
    { apply elem_of_positions_of. split; [lia|]. exists r.
      by replace (2 + i - 2) with i by lia. }
    specialize (Hassoc k). rewrite decide_False in Hassoc by done.
    destruct (positions_of k reader) as [|n l] eqn:Hps;
      [by apply elem_of_nil in Hpos|].
    apply (assoc_elem_of _ _ _ Hnd) in Hassoc.
    apply (Heq ltac:(lia)) in Hassoc; [|done]. simpl in Hassoc. simpl. lia.
Qed.

(** ** Sheets that load *)

Lemma StronglySorted_positions_of k reader : StronglySorted lt (positions_of k reader).
Proof.
  induction reader as [|r reader IH] using rev_ind; [constructor|].
  rewrite positions_of_snoc. apply StronglySorted_app_2; [|done|].
  - intros i j Hi%positions_of_lt Hj. case_decide; [|by apply elem_of_nil in Hj].
    apply list_elem_of_singleton in Hj. lia.
  - case_decide; repeat constructor.
Qed.

Lemma last_positions_of k reader :
  last (positions_of k reader) = fst <$> last (occurrences k reader).
Proof. apply fmap_last. Qed.

Lemma entry_of_Some k reader info :
  entry_of k reader = Some info ↔
  ∃ n r tag serial,
    last (occurrences k reader) = Some (n, r)
    ∧ text r "ID Tag" = Some tag ∧ text r "Serial Number" = Some serial
    ∧ info = Info.Build (positions_of k reader) (upper (strip tag)) (upper (strip serial)).
Proof.
  unfold entry_of. split.
  - destruct (last (occurrences k reader)) as [[n r]|]; simpl; [|done].
    destruct (text r "ID Tag") as [tag|] eqn:Ht; simpl; [|done].
    destruct (text r "Serial Number") as [serial|] eqn:Hs; simpl; [|done].
    intros [= <-]. by exists n, r, tag, serial.
  - intros (n & r & tag & serial & -> & Ht & Hs & ->). simpl. by rewrite Ht, Hs.
Qed.

(** On a loadable sheet every non-blank key that occurs has an entry. *)
Lemma loadable_entry_of_is_Some k reader :
  loadable reader → k ≠ "" →
  is_Some (entry_of k reader) ↔ ∃ r, r ∈ reader ∧ key_of r = Some k.
Proof.
  intros Hl Hk. split.
  - intros [info (n & r & _ & _ & Hlast & _)%entry_of_Some].
    apply last_Some_elem_of, elem_of_occurrences in Hlast as (_ & Hr & Hkey).
    exists r. split; [by eapply list_elem_of_lookup_2|done].
  - intros (r & [i Hi]%list_elem_of_lookup & Hkey).
    destruct (entry_of k reader) eqn:He; [done|exfalso].
    apply loadable_entry_of in He; [|done..].
    assert (2 + i ∈ positions_of k reader) as Hpos.
    { apply elem_of_positions_of. split; [lia|]. exists r.
      by replace (2 + i - 2) with i by lia. }
    rewrite He in Hpos. by apply elem_of_nil in Hpos.
Qed.

(** What [load_csv_as_dict] returns on a loadable sheet. *)
Lemma load_csv_as_dict_loadable fs filename reader :
  fs filename = Ok (Reader reader None) → loadable reader →
  ∃ d, load_csv_as_dict fs filename = Ok (d, dom d)
       ∧ ∀ k, d !! k = if decide (k = "") then None else entry_of k reader.
Proof.
  intros Hfs Hl. destruct (loadable_for_each_load_step reader Hl) as [[d s] Hd].
  pose proof (for_each_load_step reader d s Hd) as [-> Hlook].
  exists d. split; [|done]. apply load_csv_as_dict_Ok. by exists reader.
Qed.

Lemma load_csv_as_dict_index_of fs filename reader :
  fs filename = Ok (Reader reader None) → loadable reader →
  load_csv_as_dict fs filename = Ok ((index_of reader).1, (index_of reader).2).
Proof.
  intros Hfs Hl. destruct (loadable_for_each_load_step reader Hl) as [[d s] Hd].
  unfold index_of. rewrite Hd. simpl. apply load_csv_as_dict_Ok. by exists reader.
Qed.

(** What [compare_csvs] returns on two loadable sheets. *)
Lemma compare_csvs_loadable fs name1 name2 a b :
  fs name1 = Ok (Reader a None) → fs name2 = Ok (Reader b None) → loadable a → loadable b →
  ∃ da db c,
    load_csv_as_dict fs name1 = Ok (da, dom da)
    ∧ load_csv_as_dict fs name2 = Ok (db, dom db)
    ∧ (∀ k, da !! k = if decide (k = "") then None else entry_of k a)
    ∧ (∀ k, db !! k = if decide (k = "") then None else entry_of k b)
    ∧ compare_csvs fs name1 name2 = Ok c
    ∧ cbs_only_ips c = dom da ∖ dom db
    ∧ poco_only_ips c = dom db ∖ dom da
    ∧ ∀ k, matches_for k c = option_list (match_of da db k)
           ∧ mismatches_for k c = option_list (mismatch_of da db k).
Proof.
  intros Hfa Hfb Hla Hlb.
  destruct (load_csv_as_dict_loadable fs name1 a Hfa Hla) as (da & Hda & Hka).
  destruct (load_csv_as_dict_loadable fs name2 b Hfb Hlb) as (db & Hdb & Hkb).
  exists da, db. eexists. split_and!; [done..|by apply compare_csvs_Ok|done|done|].
  intros k. unfold matches_for, mismatches_for. simpl.
  rewrite (filter_omap_key Match.ip_address (match_of da db))
    by (apply match_of_ip || apply NoDup_elements).
  rewrite (filter_omap_key Mismatch.ip_address (mismatch_of da db))
    by (apply mismatch_of_ip || apply NoDup_elements).
  case_decide as Hin; [done|].
  rewrite elem_of_elements, elem_of_intersection, !elem_of_dom in Hin.
  unfold match_of, mismatch_of.
  destruct (da !! k) as [ia|]; simpl; [|done].
  destruct (db !! k) as [ib|]; simpl; [|done].
  exfalso. apply Hin. eauto.
Qed.

(** ** Claims about the index *)

(** C10 — For every sheet and every key of the index the loader builds, the
    position list of the key is non-empty and strictly increasing, and the
    stored tag and serial are the trimmed, uppercased tag and serial of the row
    at the last position of that list. *)
Theorem load_csv_as_dict_entries fs filename reader :
  fs filename = Ok (Reader reader None) → loadable reader →
  ∃ d s, load_csv_as_dict fs filename = Ok (d, s)
    ∧ ∀ k info, d !! k = Some info →
        Info.rows info ≠ []
        ∧ StronglySorted lt (Info.rows info)
        ∧ ∃ n r tag serial,
            last (Info.rows info) = Some n
            ∧ 2 ≤ n ∧ reader !! (n - 2) = Some r
            ∧ text r "ID Tag" = Some tag
            ∧ text r "Serial Number" = Some serial
            ∧ Info.id_tag info = upper (strip tag)
            ∧ Info.serial_number info = upper (strip serial).
Proof.
  intros Hfs Hl.
  destruct (load_csv_as_dict_loadable fs filename reader Hfs Hl) as (d & Hd & Hlook).
  exists d, (dom d). split; [done|]. intros k info Hk.
  rewrite Hlook in Hk. case_decide; [done|].
  apply entry_of_Some in Hk as (n & r & tag & serial & Hlast & Ht & Hs & ->).
  simpl. split_and!.
  - intros Hnil. rewrite <- last_None, last_positions_of, Hlast in Hnil. done.
  - apply StronglySorted_positions_of.
  - exists n, r, tag, serial. rewrite last_positions_of, Hlast.
    apply last_Some_elem_of, elem_of_occurrences in Hlast as (Hn & Hr & _).
    done.
Qed.

Lemma loadable_last_occurrence k reader n r :
  loadable reader → k ≠ "" → last (occurrences k reader) = Some (n, r) →
  ∃ tag serial,
    text r "ID Tag" = Some tag ∧ text r "Serial Number" = Some serial
    ∧ entry_of k reader
      = Some (Info.Build (positions_of k reader) (upper (strip tag)) (upper (strip serial))).
Proof.
  intros Hl Hk Hlast.
  pose proof Hlast as (_ & Hr & Hkey)%last_Some_elem_of%elem_of_occurrences.
  apply list_elem_of_lookup_2 in Hr.
  unfold loadable in Hl. rewrite Forall_forall in Hl. destruct (Hl r Hr) as [_ Hcells].
  destruct Hcells as [[tag Ht] [serial Hs]]; [by apply (nonblank_key r k)|].
  exists tag, serial. split_and!; [done..|]. apply entry_of_Some.
  by exists n, r, tag, serial.
Qed.

(** C3 — For every sheet in which a key occurs more than once, the index holds
    all positions of the key, with the tag and serial of its last occurrence;
    the comparison of two sheets then files a key of both by the tags and
    serials of its last occurrences only. *)
Theorem last_write_wins fs name1 name2 a b :
  fs name1 = Ok (Reader a None) → fs name2 = Ok (Reader b None) → loadable a → loadable b →
  ∃ da sa db sb c,
    load_csv_as_dict fs name1 = Ok (da, sa)
    ∧ load_csv_as_dict fs name2 = Ok (db, sb)
    ∧ compare_csvs fs name1 name2 = Ok c
    ∧ (∀ k, k ≠ "" → 1 < length (positions_of k a) →
         ∃ n r tag serial,
           last (occurrences k a) = Some (n, r)
           ∧ text r "ID Tag" = Some tag
           ∧ text r "Serial Number" = Some serial
           ∧ da !! k = Some (Info.Build (positions_of k a)
                                        (upper (strip tag)) (upper (strip serial))))
    ∧ (∀ k na ra nb rb,
         k ≠ "" →
         last (occurrences k a) = Some (na, ra) →
         last (occurrences k b) = Some (nb, rb) →
         ∃ tag_a serial_a tag_b serial_b,
           text ra "ID Tag" = Some tag_a ∧ text ra "Serial Number" = Some serial_a
           ∧ text rb "ID Tag" = Some tag_b ∧ text rb "Serial Number" = Some serial_b
           ∧ (matches_for k c ≠ [] ↔
              upper (strip tag_a) = upper (strip tag_b)
              ∧ upper (strip serial_a) = upper (strip serial_b))
           ∧ (mismatches_for k c ≠ [] ↔
              ¬ (upper (strip tag_a) = upper (strip tag_b)
                 ∧ upper (strip serial_a) = upper (strip serial_b)))).
Proof.
  intros Hfa Hfb Hla Hlb.
  destruct (compare_csvs_loadable fs name1 name2 a b Hfa Hfb Hla Hlb)
    as (da & db & c & Hda & Hdb & Hka & Hkb & Hc & _ & _ & Hfor).
  exists da, (dom da), db, (dom db), c. split_and!; [done..| |].
  - intros k Hk Hlen.
    destruct (last (occurrences k a)) as [[n r]|] eqn:Hlast.
    2:{ apply last_None in Hlast. unfold positions_of in Hlen.
        rewrite Hlast in Hlen. simpl in Hlen. lia. }
    destruct (loadable_last_occurrence k a n r Hla Hk Hlast)
      as (tag & serial & Ht & Hs & He).
    exists n, r, tag, serial. split_and!; [done..|].
    by rewrite Hka, decide_False.
  - intros k na ra nb rb Hk Hlasta Hlastb.
    destruct (loadable_last_occurrence k a na ra Hla Hk Hlasta)
      as (ta & sa & Hta & Hsa & Hea).
    destruct (loadable_last_occurrence k b nb rb Hlb Hk Hlastb)
      as (tb & sb & Htb & Hsb & Heb).
    exists ta, sa, tb, sb. split_and!; [done..| |].
    + destruct (Hfor k) as [-> _]. unfold match_of.
      rewrite Hka, Hkb, !decide_False, Hea, Heb by done. simpl.
      unfold agree. simpl. case_decide; simpl; naive_solver.
    + destruct (Hfor k) as [_ ->]. unfold mismatch_of.
      rewrite Hka, Hkb, !decide_False, Hea, Heb by done. simpl.
      unfold agree. simpl. case_decide; simpl; naive_solver.
Qed.

(** ** Claims about the comparison *)

Lemma entry_of_normalized k reader info :
  (∀ s, upper (upper s) = upper s) →
  (∀ s, has_lower (upper s) = false) →
  entry_of k reader = Some info →
  upper (Info.id_tag info) = Info.id_tag info
  ∧ upper (Info.serial_number info) = Info.serial_number info
  ∧ has_lower (Info.id_tag info) = false
  ∧ has_lower (Info.serial_number info) = false.
Proof.
  intros Hidemp Hlower (n & r & tag & serial & _ & _ & _ & ->)%entry_of_Some.
  simpl. by rewrite !Hidemp, !Hlower.
Qed.

(** C1 — For every two sheets that load and every key of both, the comparison
    files the key in exactly one of the exact matches and the conflicts: as an
    exact match when the tags and the serials of the two index entries, which
    are stored in upper case, are equal up to case, and as a conflict
    otherwise.  Of [str.upper] the statement uses that upper-casing an
    upper-cased text changes nothing and that an upper-cased text has no letter
    [a] to [z]. *)
Theorem compare_csvs_classifies fs name1 name2 a b :
  (∀ s, upper (upper s) = upper s) →
  (∀ s, has_lower (upper s) = false) →
  fs name1 = Ok (Reader a None) → fs name2 = Ok (Reader b None) → loadable a → loadable b →
  ∃ da sa db sb c,
    load_csv_as_dict fs name1 = Ok (da, sa)
    ∧ load_csv_as_dict fs name2 = Ok (db, sb)
    ∧ compare_csvs fs name1 name2 = Ok c
    ∧ ∀ k, k ∈ sa ∩ sb →
        ∃ ia ib,
          da !! k = Some ia ∧ db !! k = Some ib
          ∧ upper (Info.id_tag ia) = Info.id_tag ia
          ∧ upper (Info.serial_number ia) = Info.serial_number ia
          ∧ upper (Info.id_tag ib) = Info.id_tag ib
          ∧ upper (Info.serial_number ib) = Info.serial_number ib
          ∧ if eq_ignore_case (Info.id_tag ia) (Info.id_tag ib)
               && eq_ignore_case (Info.serial_number ia) (Info.serial_number ib)
            then
              matches_for k c
              = [Match.Build k (Info.rows ia) (Info.rows ib)
                   (Info.id_tag ia) (Info.serial_number ia)]
              ∧ mismatches_for k c = []
            else
              matches_for k c = []
              ∧ mismatches_for k c
                = [Mismatch.Build k (Info.rows ia) (Info.rows ib)
                     (Info.id_tag ia) (Info.serial_number ia)
                     (Info.id_tag ib) (Info.serial_number ib)].
Proof.
  intros Hidemp Hlower Hfa Hfb Hla Hlb.
  destruct (compare_csvs_loadable fs name1 name2 a b Hfa Hfb Hla Hlb)
    as (da & db & c & Hda & Hdb & Hka & Hkb & Hc & _ & _ & Hfor).
  exists da, (dom da), db, (dom db), c. split_and!; [done..|].
  intros k [[ia Hia]%elem_of_dom [ib Hib]%elem_of_dom]%elem_of_intersection.
  exists ia, ib.
  assert (upper (Info.id_tag ia) = Info.id_tag ia
          ∧ upper (Info.serial_number ia) = Info.serial_number ia
          ∧ has_lower (Info.id_tag ia) = false
          ∧ has_lower (Info.serial_number ia) = false) as (Hta & Hsa & Hlta & Hlsa).
  { rewrite Hka in Hia. case_decide; [done|]. by eapply entry_of_normalized. }
  assert (upper (Info.id_tag ib) = Info.id_tag ib
          ∧ upper (Info.serial_number ib) = Info.serial_number ib
          ∧ has_lower (Info.id_tag ib) = false
          ∧ has_lower (Info.serial_number ib) = false) as (Htb & Hsb & Hltb & Hlsb).
  { rewrite Hkb in Hib. case_decide; [done|]. by eapply entry_of_normalized. }
  split_and!; [done..|].
  destruct (Hfor k) as [-> ->]. unfold match_of, mismatch_of.
  rewrite Hia, Hib. simpl.
  destruct (eq_ignore_case (Info.id_tag ia) (Info.id_tag ib)
            && eq_ignore_case (Info.serial_number ia) (Info.serial_number ib))
    eqn:Hsame.
  - apply andb_true_iff in Hsame as [Ht Hs].
    apply eq_ignore_case_lower_free in Ht, Hs; [|done..].
    by rewrite !decide_True.
  - assert (¬ agree ia ib) as Hn.
    { intros [Ht Hs].
      apply andb_false_iff in Hsame as [Hsame|Hsame];
        apply not_true_iff_false in Hsame; apply Hsame;
        by apply eq_ignore_case_lower_free. }
    by rewrite !decide_False.
Qed.

(** C2 — For every two sheets that load, the keys of the first sheet only and
    the keys of the second sheet only are the two set differences of the key
    sets; they are disjoint, and together with the common keys they make up
    all keys of the two sheets.  The key set of a sheet is the set of the
    non-blank trimmed keys of its rows. *)
Theorem only_ips_partition fs name1 name2 a b :
  fs name1 = Ok (Reader a None) → fs name2 = Ok (Reader b None) → loadable a → loadable b →
  ∃ da sa db sb c,
    load_csv_as_dict fs name1 = Ok (da, sa)
    ∧ load_csv_as_dict fs name2 = Ok (db, sb)
    ∧ compare_csvs fs name1 name2 = Ok c
    ∧ (∀ k, k ∈ sa ↔ k ≠ "" ∧ ∃ r, r ∈ a ∧ key_of r = Some k)
    ∧ (∀ k, k ∈ sb ↔ k ≠ "" ∧ ∃ r, r ∈ b ∧ key_of r = Some k)
    ∧ cbs_only_ips c = sa ∖ sb
    ∧ poco_only_ips c = sb ∖ sa
    ∧ cbs_only_ips c ∩ poco_only_ips c = ∅
    ∧ cbs_only_ips c ∪ poco_only_ips c ∪ (sa ∩ sb) = sa ∪ sb.
Proof.
  intros Hfa Hfb Hla Hlb.
  destruct (compare_csvs_loadable fs name1 name2 a b Hfa Hfb Hla Hlb)
    as (da & db & c & Hda & Hdb & Hka & Hkb & Hc & Honlya & Honlyb & _).
  assert (∀ reader (d : gmap string Info.t),
            loadable reader →
            (∀ k, d !! k = if decide (k = "") then None else entry_of k reader) →
            ∀ k, k ∈ dom d ↔ k ≠ "" ∧ ∃ r, r ∈ reader ∧ key_of r = Some k)
    as Hkeys.
  { intros reader d Hl Hlook k. rewrite elem_of_dom, Hlook.
    case_decide as Hk; [split; [by intros [? ?]|by intros [? _]]|].
    rewrite (loadable_entry_of_is_Some k reader Hl Hk). naive_solver. }
  exists da, (dom da), db, (dom db), c.
  split_and!; [done|done|done|by apply Hkeys|by apply Hkeys|done|done|..].
  - rewrite Honlya, Honlyb. set_solver.
  - rewrite Honlya, Honlyb. apply set_eq. intros k.
    destruct (decide (k ∈ dom da)); destruct (decide (k ∈ dom db)); set_solver.
Qed.

(** C7 — For every key of both sheets whose index entries have an empty tag
    and an empty serial on both sides, the comparison files the key as an
    exact match with empty tag and serial, and not as a conflict. *)
Theorem blank_tags_match fs name1 name2 da sa db sb k ia ib :
  load_csv_as_dict fs name1 = Ok (da, sa) →
  load_csv_as_dict fs name2 = Ok (db, sb) →
  da !! k = Some ia → db !! k = Some ib →
  Info.id_tag ia = "" → Info.serial_number ia = "" →
  Info.id_tag ib = "" → Info.serial_number ib = "" →
  ∃ c, compare_csvs fs name1 name2 = Ok c
    ∧ matches_for k c = [Match.Build k (Info.rows ia) (Info.rows ib) "" ""]
    ∧ mismatches_for k c = [].
Proof.
  intros Hda Hdb Hia Hib Hta Hsa Htb Hsb.
  eexists. split; [by apply compare_csvs_Ok|].
  assert (k ∈ elements (sa ∩ sb)) as Hin.
  { apply load_csv_as_dict_Ok in Hda as (ra & _ & [-> _]%for_each_load_step).
    apply load_csv_as_dict_Ok in Hdb as (rb & _ & [-> _]%for_each_load_step).
    rewrite elem_of_elements, elem_of_intersection, !elem_of_dom. eauto. }
  unfold matches_for, mismatches_for. simpl.
  rewrite (filter_omap_key Match.ip_address (match_of da db))
    by (apply match_of_ip || apply NoDup_elements).
  rewrite (filter_omap_key Mismatch.ip_address (mismatch_of da db))
    by (apply mismatch_of_ip || apply NoDup_elements).
  rewrite !decide_True by done. unfold match_of, mismatch_of.
  rewrite Hia, Hib. simpl.
  rewrite !decide_True by (unfold agree; split; congruence).
  by rewrite Hta, Hsa.
Qed.

(** ** Claims about keys *)

Lemma loadable_keyed reader : loadable reader → keyed reader.
Proof. intros Hl. eapply Forall_impl; [exact Hl|]. by intros r [? _]. Qed.

Lemma key_of_strip r k :
  (∀ s, strip (strip s) = strip s) → key_of r = Some k → strip k = k.
Proof.
  intros Hidemp. unfold key_of. destruct (text r "IP Address") as [raw|]; simpl; [|done].
  intros [= <-]. apply Hidemp.
Qed.

(** A text that is blank after trimming is the key of no row, unless it is
    empty. *)
Lemma blank_positions_of k reader :
  (∀ s, strip (strip s) = strip s) →
  strip k = "" → k ≠ "" → positions_of k reader = [].
Proof.
  intros Hidemp Hb Hk. destruct (positions_of k reader) as [|n l] eqn:Hps; [done|].
  assert (n ∈ positions_of k reader) as Hn by (rewrite Hps; by left).
  apply elem_of_positions_of in Hn as (_ & r & _ & Hkey).
  apply key_of_strip in Hkey; [congruence|done].
Qed.

Lemma blank_entry_of k reader :
  (∀ s, strip (strip s) = strip s) →
  strip k = "" → k ≠ "" → entry_of k reader = None.
Proof.
  intros Hidemp Hb Hk. destruct (entry_of k reader) as [info|] eqn:He; [|done].
  apply entry_of_Some in He as (n & r & _ & _ & Hlast & _).
  apply last_Some_elem_of, elem_of_occurrences in Hlast as (_ & _ & Hkey).
  apply key_of_strip in Hkey; [congruence|done].
Qed.

(** The position of a row is listed under the key of that row only. *)
Lemma positions_of_row k reader i r :
  reader !! i = Some r → 2 + i ∈ positions_of k reader → key_of r = Some k.
Proof.
  intros Hi (_ & r' & Hr' & Hkey)%elem_of_positions_of.
  replace (2 + i - 2) with i in Hr' by lia. congruence.
Qed.

(** The position of a row with a blank key is in no position list of the
    detector's output and of the index. *)
Lemma blank_row_unlisted reader (dups : list (string * list nat))
    (d : gmap string Info.t) i r :
  (∀ k ps, (k, ps) ∈ dups ↔ k ≠ "" ∧ ps = positions_of k reader ∧ 2 ≤ length ps) →
  (∀ k, d !! k = if decide (k = "") then None else entry_of k reader) →
  reader !! i = Some r → key_of r = Some "" →
  (∀ k ps, (k, ps) ∈ dups → 2 + i ∉ ps)
  ∧ (∀ k info, d !! k = Some info → 2 + i ∉ Info.rows info).
Proof.
  intros Hdups Hlook Hi Hkey. split.
  - intros k ps (Hk & -> & _)%Hdups Hin.
    apply (positions_of_row k reader i r Hi) in Hin. congruence.
  - intros k info Hinfo Hin. rewrite Hlook in Hinfo.
    case_decide as Hk; [done|]. apply entry_of_rows in Hinfo. rewrite Hinfo in Hin.
    apply (positions_of_row k reader i r Hi) in Hin. congruence.
Qed.

(** C5 — Rows whose key is blank after trimming are skipped by every
    operation: a text that is blank after trimming is a key of no index, of no
    duplicate report, of neither only-in-one-sheet set and of no exact match or
    conflict, and the position of such a row is in no position list.  Of
    [str.strip] the statement uses that trimming a trimmed text changes
    nothing. *)
Theorem blank_keys_skipped fs name1 name2 a b :
  (∀ s, strip (strip s) = strip s) →
  fs name1 = Ok (Reader a None) → fs name2 = Ok (Reader b None) → loadable a → loadable b →
  ∃ dups_a dups_b da sa db sb c,
    find_duplicate_ips_in_csv fs name1 = Ok dups_a
    ∧ find_duplicate_ips_in_csv fs name2 = Ok dups_b
    ∧ load_csv_as_dict fs name1 = Ok (da, sa)
    ∧ load_csv_as_dict fs name2 = Ok (db, sb)
    ∧ compare_csvs fs name1 name2 = Ok c
    ∧ (∀ k, strip k = "" →
         k ∉ dups_a.*1 ∧ k ∉ dups_b.*1
         ∧ da !! k = None ∧ db !! k = None ∧ k ∉ sa ∧ k ∉ sb
         ∧ k ∉ cbs_only_ips c ∧ k ∉ poco_only_ips c
         ∧ matches_for k c = [] ∧ mismatches_for k c = [])
    ∧ (∀ i r, a !! i = Some r → key_of r = Some "" →
         (∀ k ps, (k, ps) ∈ dups_a → 2 + i ∉ ps)
         ∧ (∀ k info, da !! k = Some info → 2 + i ∉ Info.rows info))
    ∧ (∀ i r, b !! i = Some r → key_of r = Some "" →
         (∀ k ps, (k, ps) ∈ dups_b → 2 + i ∉ ps)
         ∧ (∀ k info, db !! k = Some info → 2 + i ∉ Info.rows info)).
Proof.
  intros Hidemp Hfa Hfb Hla Hlb.
  destruct (find_duplicate_ips_in_csv_keyed fs name1 a Hfa (loadable_keyed a Hla))
    as (dups_a & Hdups_a & _ & Hina).
  destruct (find_duplicate_ips_in_csv_keyed fs name2 b Hfb (loadable_keyed b Hlb))
    as (dups_b & Hdups_b & _ & Hinb).
  destruct (compare_csvs_loadable fs name1 name2 a b Hfa Hfb Hla Hlb)
    as (da & db & c & Hda & Hdb & Hka & Hkb & Hc & Honlya & Honlyb & Hfor).
  exists dups_a, dups_b, da, (dom da), db, (dom db), c.
  split_and!; [done..| |intros i r; by apply (blank_row_unlisted a dups_a da)
              |intros i r; by apply (blank_row_unlisted b dups_b db)].
  intros k Hblank.
  assert (∀ reader (dups : list (string * list nat)),
            (∀ k ps, (k, ps) ∈ dups ↔
                     k ≠ "" ∧ ps = positions_of k reader ∧ 2 ≤ length ps) →
            k ∉ dups.*1) as Hdups.
  { intros reader dups Hin ([k' ps] & -> & (Hk & -> & Hlen)%Hin)%list_elem_of_fmap.
    simpl in *. rewrite (blank_positions_of k' reader) in Hlen by done.
    simpl in Hlen. lia. }
  assert (∀ reader (d : gmap string Info.t),
            (∀ k, d !! k = if decide (k = "") then None else entry_of k reader) →
            d !! k = None) as Hnone.
  { intros reader d Hlook. rewrite Hlook. case_decide; [done|].
    by apply blank_entry_of. }
  pose proof (Hnone a da Hka) as Hna. pose proof (Hnone b db Hkb) as Hnb.
  pose proof Hna as Hsa%not_elem_of_dom. pose proof Hnb as Hsb%not_elem_of_dom.
  destruct (Hfor k) as [-> ->]. unfold match_of, mismatch_of.
  rewrite Honlya, Honlyb.
  split_and!; [by eapply Hdups|by eapply Hdups|done|done|done|done
              |set_solver|set_solver|by rewrite Hna|by rewrite Hna].
Qed.

(** C9 — Keys are trimmed and never changed in case: the key set of a sheet is
    the set of the non-blank trimmed keys of its rows, as they are written, and
    two different keys, so in particular two keys that differ in the case of
    their letters only, are kept apart by the detector, by the index, by the
    set differences and by the common keys. *)
Theorem keys_case_sensitive fs name1 name2 a b :
  fs name1 = Ok (Reader a None) → fs name2 = Ok (Reader b None) → loadable a → loadable b →
  ∃ dups da sa db sb c,
    find_duplicate_ips_in_csv fs name1 = Ok dups
    ∧ load_csv_as_dict fs name1 = Ok (da, sa)
    ∧ load_csv_as_dict fs name2 = Ok (db, sb)
    ∧ compare_csvs fs name1 name2 = Ok c
    ∧ (∀ k, k ∈ sa ↔ k ≠ "" ∧ ∃ r, r ∈ a ∧ key_of r = Some k)
    ∧ (∀ k, k ∈ sb ↔ k ≠ "" ∧ ∃ r, r ∈ b ∧ key_of r = Some k)
    ∧ ∀ k k', k ≠ k' →
        (∀ i r, a !! i = Some r → key_of r = Some k' →
           (∀ ps, (k, ps) ∈ dups → 2 + i ∉ ps)
           ∧ (∀ info, da !! k = Some info → 2 + i ∉ Info.rows info))
        ∧ (k ∈ sa → k' ∈ sb → k ∉ sb →
           k ∈ cbs_only_ips c ∧ matches_for k c = [] ∧ mismatches_for k c = [])
        ∧ (k ∈ sb → k' ∈ sa → k ∉ sa →
           k ∈ poco_only_ips c ∧ matches_for k c = [] ∧ mismatches_for k c = []).
Proof.
  intros Hfa Hfb Hla Hlb.
  destruct (find_duplicate_ips_in_csv_keyed fs name1 a Hfa (loadable_keyed a Hla))
    as (dups & Hdups & _ & Hin).
  destruct (compare_csvs_loadable fs name1 name2 a b Hfa Hfb Hla Hlb)
    as (da & db & c & Hda & Hdb & Hka & Hkb & Hc & Honlya & Honlyb & Hfor).
  assert (∀ reader (d : gmap string Info.t),
            loadable reader →
            (∀ k, d !! k = if decide (k = "") then None else entry_of k reader) →
            ∀ k, k ∈ dom d ↔ k ≠ "" ∧ ∃ r, r ∈ reader ∧ key_of r = Some k)
    as Hkeys.
  { intros reader d Hl Hlook k. rewrite elem_of_dom, Hlook.
    case_decide as Hk; [split; [by intros [? ?]|by intros [? _]]|].
    rewrite (loadable_entry_of_is_Some k reader Hl Hk). naive_solver. }
  exists dups, da, (dom da), db, (dom db), c.
  split_and!; [done|done|done|done|by apply Hkeys|by apply Hkeys|].
  intros k k' Hne. split_and!.
  - intros i r Hi Hkey. split.
    + intros ps (_ & -> & _)%Hin Hpos.
      apply (positions_of_row k a i r Hi) in Hpos. congruence.
    + intros info Hinfo Hpos. rewrite Hka in Hinfo. case_decide; [done|].
      apply entry_of_rows in Hinfo. rewrite Hinfo in Hpos.
      apply (positions_of_row k a i r Hi) in Hpos. congruence.
  - intros Hsa _ Hsb. split.
    + rewrite Honlya. by apply elem_of_difference.
    + destruct (Hfor k) as [-> ->]. unfold match_of, mismatch_of.
      apply not_elem_of_dom in Hsb. rewrite Hsb. by destruct (da !! k).
  - intros Hsb _ Hsa. split.
    + rewrite Honlyb. by apply elem_of_difference.
    + destruct (Hfor k) as [-> ->]. unfold match_of, mismatch_of.
      apply not_elem_of_dom in Hsa. by rewrite Hsa.
Qed.

(** ** Claims about a run *)

Lemma raises_Ok {A} (a : A) : ¬ raises (Ok a).
Proof. by intros [e ?]. Qed.

Lemma raises_Raise {A} (e : exn) : raises (@Raise A e).
Proof. by exists e. Qed.

Lemma result_cases {A} (m : result A) : (∃ a, m = Ok a) ∨ raises m.
Proof. destruct m as [a|e]; [left|right]; by eexists. Qed.

Lemma compare_csvs_Raise fs f1 f2 e :
  compare_csvs fs f1 f2 = Raise e ↔
  load_csv_as_dict fs f1 = Raise e
  ∨ (¬ raises (load_csv_as_dict fs f1) ∧ load_csv_as_dict fs f2 = Raise e).
Proof.
  destruct (load_csv_as_dict fs f1) as [[da sa]|e1] eqn:H1.
  - destruct (load_csv_as_dict fs f2) as [[db sb]|e2] eqn:H2.
    + rewrite (compare_csvs_Ok _ _ _ _ _ _ _ H1 H2).
      split; [done|]. by intros [?|[_ ?]].
    + unfold compare_csvs. rewrite H1, H2. simpl. split.
      * intros [= ->]. right. split; [apply raises_Ok|done].
      * by intros [?|[_ [= ->]]].
  - unfold compare_csvs. rewrite H1. simpl. split.
    + intros [= ->]. by left.
    + intros [[= ->]|[Hn _]]; [done|]. destruct Hn. apply raises_Raise.
Qed.

(** A run makes its three calls before it prints. *)
Lemma run_Raise fs e :
  (find_duplicate_ips_in_csv fs file1 = Raise e
   ∨ (¬ raises (find_duplicate_ips_in_csv fs file1)
      ∧ find_duplicate_ips_in_csv fs file2 = Raise e)
   ∨ (¬ raises (find_duplicate_ips_in_csv fs file1)
      ∧ ¬ raises (find_duplicate_ips_in_csv fs file2)
      ∧ compare_csvs fs file1 file2 = Raise e)) →
  run fs = ([], Raise e).
Proof.
  unfold run, main, call. cbn [mbind io_bind].
  destruct (find_duplicate_ips_in_csv fs file1) as [d1|e1].
  2:{ intros [[= ->]|[[Hn _]|[Hn _]]]; [done|destruct Hn; apply raises_Raise..]. }
  destruct (find_duplicate_ips_in_csv fs file2) as [d2|e2].
  2:{ intros [?|[[_ [= ->]]|(_ & Hn & _)]]; [done..|].
      destruct Hn; apply raises_Raise. }
  destruct (compare_csvs fs file1 file2) as [c|e3].
  - intros [?|[[_ ?]|(_ & _ & ?)]]; done.
  - by intros [?|[[_ ?]|(_ & _ & [= ->])]].
Qed.

Lemma for_each_raises {S A} (body : S → A → result S) l x :
  x ∈ l → (∀ s, raises (body s x)) → ∀ s, raises (for_each body l s).
Proof.
  intros Hx Hbody. induction l as [|y l IH]; intros s.
  - by apply elem_of_nil in Hx.
  - simpl. destruct (body s y) as [s'|e] eqn:Hy; simpl; [|by exists e].
    apply elem_of_cons in Hx as [->|Hx]; [|by apply IH].
    destruct (Hbody s) as [e He]. congruence.
Qed.

(** A fatal source makes the loader raise. *)
Lemma fatal_raises fs filename :
  fatal fs filename → raises (load_csv_as_dict fs filename).
Proof.
  intros [e H|rows e H|rows err r e H [i Hi]%list_elem_of_lookup Hrow];
    unfold load_csv_as_dict; rewrite H; simpl.
  - by exists e.
  - destruct (for_rows load_step (Reader rows (Some e)) (∅, ∅)) as [st|e'] eqn:E;
      [|by exists e']. by apply for_rows_Ok in E as [[=] _].
  - destruct (for_each_raises load_step (enumerate 2 rows) (2 + i, r))
      with (s := (∅, ∅) : gmap string Info.t * gset string) as [e' He'].
    + apply elem_of_enumerate. split; [lia|]. by replace (2 + i - 2) with i by lia.
    + intros st. exists e. by apply load_step_Raise.
    + exists e'. apply for_rows_Raise. by left.
Qed.

(** A run in which the loader raises on one of the two sheets ends at the first
    call that raises, before anything is printed. *)
Lemma run_first_error fs :
  raises (load_csv_as_dict fs file1) ∨ raises (load_csv_as_dict fs file2) →
  ∃ e, first_error fs e ∧ run fs = ([], Raise e).
Proof.
  intros Hraises. unfold first_error.
  destruct (result_cases (find_duplicate_ips_in_csv fs file1)) as [[d1 H1]|[e H1]].
  2:{ exists e. split; [by left|]. apply run_Raise. by left. }
  destruct (result_cases (find_duplicate_ips_in_csv fs file2)) as [[d2 H2]|[e H2]].
  2:{ exists e. rewrite H1. split.
      - right. left. split; [apply raises_Ok|done].
      - apply run_Raise. right. left. rewrite H1. split; [apply raises_Ok|done]. }
  destruct (result_cases (load_csv_as_dict fs file1)) as [[st1 H3]|[e H3]].
  2:{ exists e. rewrite H1, H2. split.
      - right. right. left. split_and!; [apply raises_Ok..|done].
      - apply run_Raise. right. right. rewrite H1, H2.
        split_and!; [apply raises_Ok..|]. apply compare_csvs_Raise. by left. }
  destruct (result_cases (load_csv_as_dict fs file2)) as [[st2 H4]|[e H4]].
  2:{ exists e. rewrite H1, H2, H3. split.
      - right. right. right. split_and!; [apply raises_Ok..|done].
      - apply run_Raise. right. right. rewrite H1, H2.
        split_and!; [apply raises_Ok..|]. apply compare_csvs_Raise. right.
        rewrite H3. split; [apply raises_Ok|done]. }
  exfalso. rewrite H3, H4 in Hraises.
  destruct Hraises as [H|H]; by apply raises_Ok in H.
Qed.


Lemma io_bind_Ok {A B} (m : io A) (f : A → io B) out out' a :
  m out = (out', Ok a) → (m ≫= f) out = f a out'.
Proof. intros H. unfold mbind, io_bind. by rewrite H. Qed.

(** The lines a section prints. *)
Lemma for_print_Ok {A} (line : A → io unit) l :
  (∀ x out, ∃ s, line x out = (out ++ [s], Ok tt)) →
  ∀ out, ∃ lines, for_print line l out = (out ++ lines, Ok tt)
                  ∧ length lines = length l.
Proof.
  intros Hline. induction l as [|x l IH]; intros out.
  - exists []. by rewrite app_nil_r.
  - destruct (Hline x out) as [s Hs]. destruct (IH (out ++ [s])) as (lines & Hl & Hlen).
    exists (s :: lines). cbn [for_print]. rewrite (io_bind_Ok _ _ _ _ _ Hs), Hl.
    split; [by rewrite <- app_assoc|simpl; by f_equal].
Qed.

Lemma section_Ok {A} title (items : list A) line fallback :
  (∀ x out, ∃ s, line x out = (out ++ [s], Ok tt)) →
  ∀ out, ∃ lines, section title items line fallback out = (out ++ title :: lines, Ok tt)
                  ∧ lines ≠ [].
Proof.
  intros Hline out. unfold section.
  rewrite (io_bind_Ok (print title) _ out (out ++ [title]) tt eq_refl).
  destruct items as [|x items].
  - exists [fallback]. split; [|done]. unfold print. by rewrite <- app_assoc.
  - destruct (for_print_Ok line (x :: items) Hline (out ++ [title]))
      as (lines & -> & Hlen).
    exists lines. split; [by rewrite <- app_assoc|]. by destruct lines.
Qed.

(** A run whose three calls return prints the six sections, each with its
    title and at least one line. *)
Lemma run_Ok fs d1 d2 c :
  find_duplicate_ips_in_csv fs file1 = Ok d1 →
  find_duplicate_ips_in_csv fs file2 = Ok d2 →
  compare_csvs fs file1 file2 = Ok c →
  ∃ l1 l2 l3 l4 l5 l6,
    run fs =
    ("=== DUPLICATE IPs *WITHIN* CBS MASTER ===" :: l1
     ++ String newline "=== DUPLICATE IPs *WITHIN* POCO SHEET ===" :: l2
     ++ String newline "=== IPs IN CBS MASTER BUT *NOT* IN POCO SHEET ===" :: l3
     ++ String newline "=== IPs IN POCO SHEET BUT *NOT* IN CBS MASTER ===" :: l4
     ++ String newline "=== CROSS-FILE EXACT MATCHES (SAME IP, SAME ID, SAME SERIAL) ===" :: l5
     ++ String newline "=== CROSS-FILE POTENTIAL CONFLICTS (SAME IP, DIFFERENT ID OR SERIAL) ===" :: l6,
     Ok tt)
    ∧ l1 ≠ [] ∧ l2 ≠ [] ∧ l3 ≠ [] ∧ l4 ≠ [] ∧ l5 ≠ [] ∧ l6 ≠ [].
Proof.
  intros H1 H2 H3. unfold run, main. rewrite H1, H2, H3.
  rewrite (io_bind_Ok (call (Ok d1)) _ [] [] d1 eq_refl).
  rewrite (io_bind_Ok (call (Ok d2)) _ [] [] d2 eq_refl).
  rewrite (io_bind_Ok (call (Ok c)) _ [] [] c eq_refl).
  assert (∀ x out, ∃ s, print_duplicate x out = (out ++ [s], Ok tt)) as Hd
    by (intros [ip rows] out; by eexists).
  assert (∀ x out, ∃ s, print_ip x out = (out ++ [s], Ok tt)) as Hi
    by (intros x out; by eexists).
  assert (∀ x out, ∃ s, print_match x out = (out ++ [s], Ok tt)) as Hm
    by (intros x out; by eexists).
  assert (∀ x out, ∃ s, print_mismatch x out = (out ++ [s], Ok tt)) as Hmm
    by (intros x out; by eexists).
  repeat match goal with
    | |- context [(section ?t ?items ?line ?fb ≫= ?k) ?out] =>
        let l := fresh "l" in
        let E := fresh "E" in
        let Hl := fresh "Hl" in
        destruct (section_Ok t items line fb ltac:(assumption) out) as (l & E & Hl);
        rewrite (io_bind_Ok _ k _ _ _ E)
    end.
  match goal with
  | |- context [section ?t ?items ?line ?fb ?out] =>
      destruct (section_Ok t items line fb ltac:(assumption) out) as (l6 & E6 & Hl6);
      rewrite E6
  end.
  exists l, l0, l1, l2, l3, l6. split; [|done].
  f_equal. simpl. by rewrite <- !app_assoc.
Qed.

(** The script tests a set for emptiness and then prints it sorted; the model
    tests the sorted list. *)
Lemma sorted_nil ips : sorted ips = [] ↔ ips = ∅.
Proof.
  unfold sorted. split.
  - intros H. apply leibniz_equiv, elements_empty_inv.
    apply Permutation_nil_r. rewrite <- H. symmetry. apply merge_sort_Permutation.
  - intros ->. by rewrite elements_empty.
Qed.

(** * Further properties *)

(** ** The detector *)

Lemma first_positions_setdefault_append ip n d :
  Forall (λ entry, entry.2 ≠ []) d →
  first_position <$> setdefault_append ip n d =
  (first_position <$> d) ++ (if decide (ip ∈ d.*1) then [] else [n]).
Proof.
  induction d as [|[k v] d IH]; intros Hne.
  - cbn [setdefault_append]. rewrite decide_False by apply not_elem_of_nil. done.
  - apply Forall_cons in Hne as [Hv Hne]. cbn [setdefault_append].
    destruct (decide (k = ip)) as [->|Hk].
    + rewrite !fmap_cons. rewrite decide_True by (simpl; by left).
      rewrite app_nil_r. f_equal. unfold first_position. simpl in *.
      by destruct v.
    + rewrite !fmap_cons, IH by done. simpl. f_equal. f_equal.
      destruct (decide (ip ∈ d.*1)) as [Hin|Hin].
      * rewrite decide_True by (by right). done.
      * rewrite decide_False; [done|]. rewrite not_elem_of_cons. naive_solver.
Qed.

Lemma for_each_find_duplicate_step_order reader d :
  for_each find_duplicate_step (enumerate 2 reader) [] = Ok d →
  Forall (λ entry, entry.2 ≠ []) d
  ∧ Forall (λ n, n < 2 + length reader) (first_position <$> d)
  ∧ StronglySorted lt (first_position <$> d).
Proof.
  revert d. induction reader as [|r reader IH] using rev_ind; intros d.
  - intros [= <-]. split_and!; constructor.
  - rewrite enumerate_app. simpl. rewrite for_each_snoc_Ok.
    intros (d0 & Hd0 & Hstep). destruct (IH d0 Hd0) as (Hne & Hlt & Hsorted).
    apply find_duplicate_step_Ok in Hstep as (k0 & _ & ->).
    rewrite length_app. simpl.
    assert (Forall (λ n, n < 2 + (length reader + 1)) (first_position <$> d0)) as Hlt'.
    { eapply Forall_impl; [exact Hlt|]. simpl. intros; lia. }
    destruct (decide (k0 = "")) as [_|_]; [done|].
    rewrite first_positions_setdefault_append by done.
    split_and!.
    + clear -Hne. induction d0 as [|[k v] d0 IH]; cbn [setdefault_append].
      * by repeat constructor.
      * apply Forall_cons in Hne as [Hv Hne]. case_decide.
        -- constructor; [|done]. simpl. by destruct v.
        -- constructor; [done|]. by apply IH.
    + apply Forall_app. split; [done|]. case_decide; [constructor|].
      constructor; [lia|constructor].
    + apply StronglySorted_app_2; [|done|case_decide; repeat constructor].
      intros i j Hi Hj. case_decide; [by apply elem_of_nil in Hj|].
      apply list_elem_of_singleton in Hj as ->.
      rewrite Forall_forall in Hlt. apply Hlt in Hi. lia.
Qed.

Lemma StronglySorted_filter_fmap {A} (f : A → nat) (P : A → Prop)
    `{!∀ x, Decision (P x)} (l : list A) :
  StronglySorted lt (f <$> l) → StronglySorted lt (f <$> filter P l).
Proof.
  induction l as [|x l IH]; [done|]. rewrite fmap_cons, StronglySorted_cons.
  intros [Hx Hl]. rewrite filter_cons. case_decide; [|by apply IH].
  rewrite fmap_cons. apply StronglySorted_cons. split; [|by apply IH].
  rewrite Forall_forall in Hx. apply Forall_forall.
  intros n (y & -> & [_ Hy]%list_elem_of_filter)%list_elem_of_fmap.
  apply Hx, list_elem_of_fmap. eauto.
Qed.

(** X1 — The detector lists the duplicated keys in the order in which they
    first occur in the sheet: along its output the first positions of the
    entries increase strictly. *)
Theorem find_duplicate_ips_in_csv_order fs filename reader :
  fs filename = Ok (Reader reader None) → keyed reader →
  ∃ dups, find_duplicate_ips_in_csv fs filename = Ok dups
    ∧ (∀ k ps, (k, ps) ∈ dups → head ps = head (positions_of k reader))
    ∧ StronglySorted lt (first_position <$> dups).
Proof.
  intros Hfs Hkeyed.
  destruct (for_each_find_duplicate_step_keyed reader Hkeyed) as [d Hd].
  pose proof (for_each_find_duplicate_step reader d Hd) as (Hnd & Hassoc & _).
  pose proof (for_each_find_duplicate_step_order reader d Hd) as (_ & _ & Hsorted).
  exists (filter (λ entry, 1 < length entry.2) d). split_and!.
  - apply find_duplicate_ips_in_csv_Ok. by exists reader, d.
  - intros k ps [_ Hin]%list_elem_of_filter.
    apply (assoc_elem_of _ _ _ Hnd) in Hin. rewrite Hassoc in Hin.
    case_decide; [done|]. destruct (positions_of k reader); [done|].
    by injection Hin as <-.
  - by apply StronglySorted_filter_fmap.
Qed.

Lemma find_duplicate_step_cases d n r :
  (∃ d', find_duplicate_step d (n, r) = Ok d' ∧ is_Some (text r "IP Address"))
  ∨ (∃ e, find_duplicate_step d (n, r) = Raise e ∧ key_raises r e
          ∧ text r "IP Address" = None).
Proof.
  unfold find_duplicate_step, getitem, text.
  destruct (r !! "IP Address") as [[raw|]|] eqn:Hip; simpl.
  - left. case_decide; eauto.
  - right. eexists. split_and!; [done| |done]. by constructor.
  - right. eexists. split_and!; [done| |done]. by constructor.
Qed.

Lemma key_raises_text r e : key_raises r e → text r "IP Address" = None.
Proof. unfold text. by intros [->| ->]. Qed.

Lemma key_raises_inj r e1 e2 : key_raises r e1 → key_raises r e2 → e1 = e2.
Proof. intros [H1|H1] [H2|H2]; congruence. Qed.

Lemma for_each_find_duplicate_step_Raise reader n d e :
  for_each find_duplicate_step (enumerate n reader) d = Raise e ↔
  ∃ pre r post, reader = pre ++ r :: post ∧ keyed pre ∧ key_raises r e.
Proof.
  revert n d. induction reader as [|r reader IH]; intros n d.
  - split; [done|]. intros (pre & r & post & Heq & _). by destruct pre.
  - cbn [enumerate for_each].
    destruct (find_duplicate_step_cases d n r)
      as [(d' & -> & Hr)|(e' & -> & He' & Hr)]; simpl.
    + rewrite IH. split.
      * intros (pre & r' & post & -> & Hpre & Hr').
        exists (r :: pre), r', post. split_and!; [done| |done]. by constructor.
      * intros ([|r0 pre] & r' & post & Heq & Hpre & Hr'); simplify_eq/=.
        -- apply key_raises_text in Hr'. rewrite Hr' in Hr. by destruct Hr.
        -- apply Forall_cons in Hpre as [_ Hpre]. by exists pre, r', post.
    + split.
      * intros [= <-]. exists [], r, reader. split_and!; [done|constructor|done].
      * intros ([|r0 pre] & r' & post & Heq & Hpre & Hr'); simplify_eq/=.
        -- f_equal. by eapply key_raises_inj.
        -- apply Forall_cons in Hpre as [Hr0 _]. rewrite Hr in Hr0. by destruct Hr0.
Qed.

Lemma for_each_find_duplicate_step_Ok_keyed reader d :
  for_each find_duplicate_step (enumerate 2 reader) [] = Ok d → keyed reader.
Proof.
  revert d. induction reader as [|r reader IH] using rev_ind; intros d.
  - intros _. constructor.
  - rewrite enumerate_app. simpl. rewrite for_each_snoc_Ok.
    intros (d0 & Hd0 & Hstep). apply Forall_app. split; [by eapply IH|].
    apply Forall_singleton. apply find_duplicate_step_Ok in Hstep as (k & Hk & _).
    unfold key_of in Hk. by destruct (text r "IP Address").
Qed.

Lemma find_duplicate_loop_Ok reader :
  (∃ d, for_each find_duplicate_step (enumerate 2 reader) [] = Ok d) ↔ keyed reader.
Proof.
  split.
  - intros [d Hd]. by eapply for_each_find_duplicate_step_Ok_keyed.
  - apply for_each_find_duplicate_step_keyed.
Qed.

(** X2 — The detector returns exactly on the sheets that are opened and read to
    their end and whose rows all have a filled "IP Address" cell.  Otherwise it
    raises: the error of opening the file; or the exception of the first row
    without such a cell, a [KeyError] when the column is missing and an
    [AttributeError] when the cell is [None]; or, when every row the reader
    yields has the cell, the error that ends the reading. *)
Theorem find_duplicate_ips_in_csv_errors fs filename :
  ((∃ dups, find_duplicate_ips_in_csv fs filename = Ok dups) ↔
   ∃ reader, fs filename = Ok (Reader reader None) ∧ keyed reader)
  ∧ ∀ e, find_duplicate_ips_in_csv fs filename = Raise e ↔
      fs filename = Raise e
      ∨ (∃ pre r post err,
           fs filename = Ok (Reader (pre ++ r :: post) err)
           ∧ keyed pre ∧ key_raises r e)
      ∨ (∃ reader, fs filename = Ok (Reader reader (Some e)) ∧ keyed reader).
Proof.
  split.
  - split.
    + intros [dups (reader & d & Hfs & Hd & _)%find_duplicate_ips_in_csv_Ok].
      exists reader. split; [done|]. by eapply for_each_find_duplicate_step_Ok_keyed.
    + intros (reader & Hfs & Hk).
      destruct (for_each_find_duplicate_step_keyed reader Hk) as [d Hd].
      eexists. apply find_duplicate_ips_in_csv_Ok. by exists reader, d.
  - intros e. unfold find_duplicate_ips_in_csv.
    destruct (fs filename) as [[rows err]|e0]; simpl.
    + transitivity (for_rows find_duplicate_step (Reader rows err) [] = Raise e).
      { by destruct (for_rows find_duplicate_step (Reader rows err) []). }
      rewrite for_rows_Raise, for_each_find_duplicate_step_Raise, find_duplicate_loop_Ok.
      split.
      * intros [(pre & r & post & -> & Hpre & Hr)|[Hk ->]].
        -- right. left. by exists pre, r, post, err.
        -- right. right. by exists rows.
      * intros [[=]|[(pre & r & post & err' & [= -> ->] & Hpre & Hr)
                    |(reader & [= -> ->] & Hk)]].
        -- left. by exists pre, r, post.
        -- by right.
    + split; [intros [= ->]; by left|].
      by intros [[= ->]|[(? & ? & ? & ? & [=] & _)|(? & [=] & _)]].
Qed.

(** ** The loader *)

Lemma load_step_Ok_row st n r :
  (∃ st', load_step st (n, r) = Ok st') ↔
  is_Some (text r "IP Address")
  ∧ (nonblank r → is_Some (text r "ID Tag") ∧ is_Some (text r "Serial Number")).
Proof.
  destruct st as [d s]. split.
  - intros [[d' s'] (k & Hk & Hcase)%load_step_Ok].
    unfold key_of in Hk. destruct (text r "IP Address") as [raw|] eqn:Hip; [|done].
    split; [done|]. intros Hnb.
    assert (key_of r = Some k) as Hkey by (unfold key_of; by rewrite Hip).
    apply (nonblank_key r k Hkey) in Hnb.
    destruct Hcase as [[? _]|(_ & tag & serial & -> & -> & _)]; [done|eauto].
  - intros [[raw Hip] Hcells].
    assert (key_of r = Some (strip raw)) as Hkey by (unfold key_of; by rewrite Hip).
    destruct (decide (strip raw = "")) as [Hb|Hb].
    + exists (d, s). apply load_step_Ok. exists (strip raw). split; [done|]. by left.
    + destruct Hcells as [[tag Ht] [serial Hs]]; [by apply (nonblank_key r _ Hkey)|].
      eexists (_, _). apply load_step_Ok. exists (strip raw). split; [done|].
      right. split; [done|]. exists tag, serial. split_and!; done.
Qed.

Lemma for_each_load_step_Raise reader n st e :
  for_each load_step (enumerate n reader) st = Raise e ↔
  ∃ pre r post, reader = pre ++ r :: post ∧ loadable pre ∧ row_raises r e.
Proof.
  revert n st. induction reader as [|r reader IH]; intros n st.
  - split; [done|]. intros (pre & r & post & Heq & _). by destruct pre.
  - cbn [enumerate for_each].
    destruct (load_step st (n, r)) as [st'|e'] eqn:Hstep; simpl.
    + assert (∃ st', load_step st (n, r) = Ok st') as Hok%load_step_Ok_row by eauto.
      rewrite IH. split.
      * intros (pre & r' & post & -> & Hpre & Hr').
        exists (r :: pre), r', post. split_and!; [done| |done]. by constructor.
      * intros ([|r0 pre] & r' & post & Heq & Hpre & Hr'); simplify_eq/=.
        -- apply (load_step_Raise st n) in Hr'. congruence.
        -- apply Forall_cons in Hpre as [_ Hpre]. by exists pre, r', post.
    + split.
      * intros [= <-]. exists [], r, reader.
        split_and!; [done|constructor|by eapply load_step_Raise].
      * intros ([|r0 pre] & r' & post & Heq & Hpre & Hr'); simplify_eq/=.
        -- apply (load_step_Raise st n) in Hr'. congruence.
        -- apply Forall_cons in Hpre as [Hr0 _].
           apply (load_step_Ok_row st n) in Hr0 as [st' Hst']. congruence.
Qed.

Lemma load_loop_Ok reader :
  (∃ st, for_each load_step (enumerate 2 reader) (∅, ∅) = Ok st) ↔ loadable reader.
Proof.
  split.
  - intros [st Hst]. by eapply for_each_load_step_loadable.
  - apply loadable_for_each_load_step.
Qed.

(** X3 — The loader returns exactly on the sheets that are opened and read to
    their end and whose rows all have a filled "IP Address" cell and, when the
    key is not blank, filled "ID Tag" and "Serial Number" cells.  Otherwise it
    raises: the error of opening the file; or the exception of the first row
    that lacks a cell, where the key is looked up first, then the tag, then the
    serial, and a row with a blank key raises for neither tag nor serial; or,
    when no row the reader yields raises, the error that ends the reading. *)
Theorem load_csv_as_dict_errors fs filename :
  ((∃ state, load_csv_as_dict fs filename = Ok state) ↔
   ∃ reader, fs filename = Ok (Reader reader None) ∧ loadable reader)
  ∧ ∀ e, load_csv_as_dict fs filename = Raise e ↔
      fs filename = Raise e
      ∨ (∃ pre r post err,
           fs filename = Ok (Reader (pre ++ r :: post) err)
           ∧ loadable pre ∧ row_raises r e)
      ∨ (∃ reader, fs filename = Ok (Reader reader (Some e)) ∧ loadable reader).
Proof.
  split.
  - split.
    + intros [st (reader & Hfs & Hst)%load_csv_as_dict_Ok].
      exists reader. split; [done|]. by eapply for_each_load_step_loadable.
    + intros (reader & Hfs & Hl).
      destruct (loadable_for_each_load_step reader Hl) as [st Hst].
      exists st. apply load_csv_as_dict_Ok. by exists reader.
  - intros e. unfold load_csv_as_dict.
    destruct (fs filename) as [[rows err]|e0]; simpl.
    + rewrite for_rows_Raise, for_each_load_step_Raise, load_loop_Ok. split.
      * intros [(pre & r & post & -> & Hpre & Hr)|[Hk ->]].
        -- right. left. by exists pre, r, post, err.
        -- right. right. by exists rows.
      * intros [[=]|[(pre & r & post & err' & [= -> ->] & Hpre & Hr)
                    |(reader & [= -> ->] & Hk)]].
        -- left. by exists pre, r, post.
        -- by right.
    + split; [intros [= ->]; by left|].
      by intros [[= ->]|[(? & ? & ? & ? & [=] & _)|(? & [=] & _)]].
Qed.

(** ** The detector and the loader on one sheet *)

Lemma for_each_find_duplicate_step_ext a b n d :
  Forall2 (λ r r' : row, r !! "IP Address" = r' !! "IP Address") a b →
  for_each find_duplicate_step (enumerate n a) d
  = for_each find_duplicate_step (enumerate n b) d.
Proof.
  intros H. revert n d. induction H as [|r r' a b Hr _ IH]; intros n d; [done|].
  cbn [enumerate for_each].
  assert (find_duplicate_step d (n, r) = find_duplicate_step d (n, r')) as ->
    by (unfold find_duplicate_step, getitem; by rewrite Hr).
  destruct (find_duplicate_step d (n, r')); simpl; [apply IH|done].
Qed.

(** X4 — The detector reads the "IP Address" column only: on two sheets whose
    rows have the same cells in that column it gives the same result, whatever
    the other columns hold. *)
Theorem find_duplicate_ips_in_csv_key_column fs fs' filename filename' a b :
  fs filename = Ok (Reader a None) → fs' filename' = Ok (Reader b None) →
  Forall2 (λ r r' : row, r !! "IP Address" = r' !! "IP Address") a b →
  find_duplicate_ips_in_csv fs filename = find_duplicate_ips_in_csv fs' filename'.
Proof.
  intros Ha Hb H. unfold find_duplicate_ips_in_csv, for_rows. rewrite Ha, Hb. simpl.
  by rewrite (for_each_find_duplicate_step_ext a b 2 [] H).
Qed.

(** X5 — On a sheet that loads, the detector's output can be read off the
    index: it holds a key with a position list exactly when the index entry of
    the key has that list as its rows and the list has more than one
    element. *)
Theorem find_duplicate_ips_in_csv_index fs filename reader :
  fs filename = Ok (Reader reader None) → loadable reader →
  ∃ dups d s,
    find_duplicate_ips_in_csv fs filename = Ok dups
    ∧ load_csv_as_dict fs filename = Ok (d, s)
    ∧ ∀ k ps, (k, ps) ∈ dups ↔
              ∃ info, d !! k = Some info ∧ Info.rows info = ps ∧ 1 < length ps.
Proof.
  intros Hfs Hl.
  destruct (find_duplicate_ips_in_csv_keyed fs filename reader Hfs
              (loadable_keyed reader Hl)) as (dups & Hdups & _ & Hin).
  destruct (load_csv_as_dict_loadable fs filename reader Hfs Hl) as (d & Hd & Hlook).
  exists dups, d, (dom d). split_and!; [done..|].
  intros k ps. rewrite Hin, Hlook. split.
  - intros (Hk & -> & Hlen). rewrite decide_False by done.
    destruct (entry_of k reader) as [info|] eqn:He.
    + exists info. split_and!; [done|by apply entry_of_rows|lia].
    + rewrite (loadable_entry_of k reader Hl Hk He) in Hlen. simpl in Hlen. lia.
  - intros (info & Hinfo & <- & Hlen). case_decide; [done|].
    split_and!; [done|by rewrite (entry_of_rows _ _ _ Hinfo)|lia].
Qed.

(** X6 — Whenever the loader returns on a sheet, the detector returns on it
    too: the loader looks up every cell the detector looks up. *)
Theorem load_csv_as_dict_find_duplicate_ips_in_csv fs filename state :
  load_csv_as_dict fs filename = Ok state →
  ∃ dups, find_duplicate_ips_in_csv fs filename = Ok dups.
Proof.
  intros (reader & Hfs & Hst)%load_csv_as_dict_Ok.
  apply for_each_load_step_loadable, loadable_keyed in Hst.
  destruct (for_each_find_duplicate_step_keyed reader Hst) as [d Hd].
  eexists. apply find_duplicate_ips_in_csv_Ok. by exists reader, d.
Qed.

(** X7 — The key set the loader returns is the set of the keys of the index it
    returns, and the index lists a position under a key exactly when the row at
    that position has that key and the key is not blank: every row with a
    non-blank key is indexed once, under its own key, and no other position
    is. *)
Theorem load_csv_as_dict_rows fs filename reader :
  fs filename = Ok (Reader reader None) → loadable reader →
  ∃ d s,
    load_csv_as_dict fs filename = Ok (d, s)
    ∧ s = dom d
    ∧ ∀ k n, (∃ info, d !! k = Some info ∧ n ∈ Info.rows info) ↔
             k ≠ "" ∧ 2 ≤ n ∧ ∃ r, reader !! (n - 2) = Some r ∧ key_of r = Some k.
Proof.
  intros Hfs Hl.
  destruct (load_csv_as_dict_loadable fs filename reader Hfs Hl) as (d & Hd & Hlook).
  exists d, (dom d). split_and!; [done..|].
  intros k n. rewrite Hlook, <- elem_of_positions_of. split.
  - intros (info & Hinfo & Hn). case_decide; [done|].
    by rewrite (entry_of_rows _ _ _ Hinfo) in Hn.
  - intros [Hk Hn]. rewrite decide_False by done.
    destruct (entry_of k reader) as [info|] eqn:He.
    + exists info. split; [done|]. by rewrite (entry_of_rows _ _ _ He).
    + rewrite (loadable_entry_of k reader Hl Hk He) in Hn. by apply elem_of_nil in Hn.
Qed.

(** ** Normal forms *)

(** X8 — Every entry of the index the loader returns is in normal form: its key
    is not empty and has no white space around it, and its tag and serial have
    no white space around them and no letter [a] to [z].  Of the two text
    functions the statement uses that trimming a trimmed text changes nothing,
    that trimming and upper-casing commute, and that an upper-cased text has no
    letter [a] to [z]. *)
Theorem load_csv_as_dict_normal_forms fs filename reader :
  (∀ s, strip (strip s) = strip s) →
  (∀ s, strip (upper s) = upper (strip s)) →
  (∀ s, has_lower (upper s) = false) →
  fs filename = Ok (Reader reader None) → loadable reader →
  ∃ d s,
    load_csv_as_dict fs filename = Ok (d, s)
    ∧ ∀ k info, d !! k = Some info →
        k ≠ "" ∧ strip k = k
        ∧ strip (Info.id_tag info) = Info.id_tag info
        ∧ has_lower (Info.id_tag info) = false
        ∧ strip (Info.serial_number info) = Info.serial_number info
        ∧ has_lower (Info.serial_number info) = false.
Proof.
  intros Hidemp Hcomm Hlower Hfs Hl.
  destruct (load_csv_as_dict_loadable fs filename reader Hfs Hl) as (d & Hd & Hlook).
  exists d, (dom d). split; [done|]. intros k info Hinfo.
  rewrite Hlook in Hinfo. case_decide as Hk; [done|].
  apply entry_of_Some in Hinfo as (n & r & tag & serial & Hlast & _ & _ & ->).
  apply last_Some_elem_of, elem_of_occurrences in Hlast as (_ & _ & Hkey).
  simpl. rewrite !Hcomm, !Hidemp, !Hlower.
  split_and!; [done|by eapply key_of_strip|done..].
Qed.

Lemma same_cells_row_ok r r' :
  same_cells r r' →
  is_Some (text r "IP Address")
  ∧ (nonblank r → is_Some (text r "ID Tag") ∧ is_Some (text r "Serial Number")) →
  is_Some (text r' "IP Address")
  ∧ (nonblank r' → is_Some (text r' "ID Tag") ∧ is_Some (text r' "Serial Number")).
Proof.
  intros (Hkey & Htag & Hser) [Hip Hcells]. unfold nonblank, key_of in *.
  split.
  - apply (fmap_is_Some strip). rewrite <- Hkey. by apply fmap_is_Some.
  - rewrite <- Hkey. intros [Ht Hs]%Hcells. split.
    + apply (fmap_is_Some (upper ∘ strip)). rewrite <- Htag. by apply fmap_is_Some.
    + apply (fmap_is_Some (upper ∘ strip)). rewrite <- Hser. by apply fmap_is_Some.
Qed.

Lemma load_step_same_cells st n r r' :
  same_cells r r' →
  is_Some (text r "IP Address")
  ∧ (nonblank r → is_Some (text r "ID Tag") ∧ is_Some (text r "Serial Number")) →
  load_step st (n, r) = load_step st (n, r').
Proof.
  intros Hsame Hok. pose proof (same_cells_row_ok r r' Hsame Hok) as Hok'.
  destruct Hsame as (Hkey & Htag & Hser). destruct st as [d s].
  destruct (proj2 (load_step_Ok_row (d, s) n r) Hok) as [[d1 s1] H1].
  destruct (proj2 (load_step_Ok_row (d, s) n r') Hok') as [[d2 s2] H2].
  rewrite H1, H2. f_equal.
  apply load_step_Ok in H1 as (k1 & Hk1 & C1).
  apply load_step_Ok in H2 as (k2 & Hk2 & C2).
  assert (k2 = k1) as -> by congruence.
  destruct C1 as [(Hb & -> & ->)|(Hne & t1 & n1 & Ht1 & Hn1 & -> & ->)];
    destruct C2 as [(Hb' & -> & ->)|(Hne' & t2 & n2 & Ht2 & Hn2 & -> & ->)];
    try done.
  rewrite Ht1, Ht2 in Htag. rewrite Hn1, Hn2 in Hser. simpl in Htag, Hser.
  congruence.
Qed.

Lemma for_each_load_step_same_cells a b n st :
  Forall2 same_cells a b → loadable a →
  for_each load_step (enumerate n a) st = for_each load_step (enumerate n b) st.
Proof.
  intros H. revert n st. induction H as [|r r' a b Hr _ IH]; intros n st Hl; [done|].
  apply Forall_cons in Hl as [Hok Hl]. cbn [enumerate for_each].
  rewrite <- (load_step_same_cells st n r r' Hr Hok).
  destruct (load_step st (n, r)); simpl; [by apply IH|done].
Qed.

(** X9 — The loader reads the cells up to their normal form only: on two sheets
    whose rows have the same trimmed keys and the same trimmed, upper-cased
    tags and serials it returns the same index and the same key set. *)
Theorem load_csv_as_dict_same_cells fs fs' filename filename' a b :
  fs filename = Ok (Reader a None) → fs' filename' = Ok (Reader b None) → loadable a →
  Forall2 same_cells a b →
  load_csv_as_dict fs filename = load_csv_as_dict fs' filename'.
Proof.
  intros Ha Hb Hl H. unfold load_csv_as_dict, for_rows. rewrite Ha, Hb. simpl.
  by rewrite (for_each_load_step_same_cells a b 2 (∅, ∅) H Hl).
Qed.

(** ** The comparison *)

Lemma omap_fmap_option {A B C} (f : B → C) (g : A → option B) (l : list A) :
  omap (λ x, f <$> g x) l = f <$> omap g l.
Proof.
  induction l as [|x l IH]; [done|]. cbn [omap list_omap].
  destruct (g x); simpl; by rewrite IH.
Qed.

Lemma omap_ext_fun {A B} (f g : A → option B) (l : list A) :
  (∀ x, f x = g x) → omap f l = omap g l.
Proof.
  intros H. induction l as [|x l IH]; [done|]. cbn [omap list_omap].
  by rewrite H, IH.
Qed.

Lemma match_of_swap da db k : match_of db da k = swap_match <$> match_of da db k.
Proof.
  unfold match_of. destruct (da !! k) as [a|], (db !! k) as [b|]; simpl; try done.
  destruct (decide (agree a b)) as [[Ht Hs]|Hn].
  - rewrite decide_True by (by split). simpl. unfold swap_match. simpl.
    by rewrite Ht, Hs.
  - rewrite decide_False; [done|]. intros [Ht Hs]. by apply Hn.
Qed.

Lemma mismatch_of_swap da db k :
  mismatch_of db da k = swap_mismatch <$> mismatch_of da db k.
Proof.
  unfold mismatch_of. destruct (da !! k) as [a|], (db !! k) as [b|]; simpl; try done.
  destruct (decide (agree a b)) as [[Ht Hs]|Hn].
  - by rewrite decide_True by (by split).
  - rewrite decide_False; [done|]. intros [Ht Hs]. by apply Hn.
Qed.

(** X10 — The comparison is symmetric: with the two sheets in the other order
    the two only-in-one-sheet sets change places, and the exact matches and
    the conflicts are the same records with their two sides exchanged. *)
Theorem compare_csvs_sym fs name1 name2 da sa db sb :
  load_csv_as_dict fs name1 = Ok (da, sa) →
  load_csv_as_dict fs name2 = Ok (db, sb) →
  ∃ c c',
    compare_csvs fs name1 name2 = Ok c
    ∧ compare_csvs fs name2 name1 = Ok c'
    ∧ cbs_only_ips c' = poco_only_ips c
    ∧ poco_only_ips c' = cbs_only_ips c
    ∧ duplicates_across c' ≡ₚ swap_match <$> duplicates_across c
    ∧ mismatches c' ≡ₚ swap_mismatch <$> mismatches c.
Proof.
  intros Ha Hb. do 2 eexists.
  split; [by apply compare_csvs_Ok|]. split; [by apply compare_csvs_Ok|].
  simpl. assert (sb ∩ sa = sa ∩ sb) as -> by set_solver.
  split_and!; [done|done|..].
  - by rewrite <- omap_fmap_option, (omap_ext_fun _ _ _ (match_of_swap da db)).
  - by rewrite <- omap_fmap_option, (omap_ext_fun _ _ _ (mismatch_of_swap da db)).
Qed.

Lemma match_of_Some da db k m :
  match_of da db k = Some m ↔
  ∃ a b, da !! k = Some a ∧ db !! k = Some b ∧ agree a b
         ∧ m = Match.Build k (Info.rows a) (Info.rows b)
                 (Info.id_tag a) (Info.serial_number a).
Proof.
  unfold match_of. destruct (da !! k) as [a|]; simpl; [|naive_solver].
  destruct (db !! k) as [b|]; simpl; [|naive_solver].
  case_decide; naive_solver.
Qed.

Lemma mismatch_of_Some da db k m :
  mismatch_of da db k = Some m ↔
  ∃ a b, da !! k = Some a ∧ db !! k = Some b ∧ ¬ agree a b
         ∧ m = Mismatch.Build k (Info.rows a) (Info.rows b)
                 (Info.id_tag a) (Info.serial_number a)
                 (Info.id_tag b) (Info.serial_number b).
Proof.
  unfold mismatch_of. destruct (da !! k) as [a|]; simpl; [|naive_solver].
  destruct (db !! k) as [b|]; simpl; [|naive_solver].
  case_decide; naive_solver.
Qed.

(** The keys of the records the loop makes from a list of common keys are the
    keys of the list, each once. *)
Lemma omap_match_of_keys (da db : gmap string Info.t) l :
  (∀ k, k ∈ l → is_Some (da !! k) ∧ is_Some (db !! k)) →
  (Match.ip_address <$> omap (match_of da db) l)
  ++ (Mismatch.ip_address <$> omap (mismatch_of da db) l) ≡ₚ l.
Proof.
  induction l as [|k l IH]; intros Hl; [done|].
  destruct (Hl k) as [[a Ha] [b Hb]]; [by left|].
  cbn [omap list_omap]. unfold match_of at 1, mismatch_of at 1.
  rewrite Ha, Hb. simpl.
  destruct (decide (agree a b)); simpl.
  - constructor. apply IH. intros; apply Hl; by right.
  - rewrite <- Permutation_middle. constructor. apply IH. intros; apply Hl; by right.
Qed.

(** X11 — The exact matches and the conflicts of a comparison have, together,
    each common key of the two sheets once and no other key; a conflict record
    shows two tags or two serials that differ, and an exact-match record the
    tag and the serial that both index entries carry. *)
Theorem compare_csvs_records fs name1 name2 da sa db sb :
  load_csv_as_dict fs name1 = Ok (da, sa) →
  load_csv_as_dict fs name2 = Ok (db, sb) →
  ∃ c,
    compare_csvs fs name1 name2 = Ok c
    ∧ (Match.ip_address <$> duplicates_across c)
      ++ (Mismatch.ip_address <$> mismatches c) ≡ₚ elements (sa ∩ sb)
    ∧ length (duplicates_across c) + length (mismatches c) = size (sa ∩ sb)
    ∧ Forall (λ d, ∃ a b,
                da !! Match.ip_address d = Some a
                ∧ db !! Match.ip_address d = Some b
                ∧ Match.cbs_master_rows d = Info.rows a
                ∧ Match.poco_sheet_rows d = Info.rows b
                ∧ Match.id_tag d = Info.id_tag a
                ∧ Match.id_tag d = Info.id_tag b
                ∧ Match.serial_number d = Info.serial_number a
                ∧ Match.serial_number d = Info.serial_number b)
             (duplicates_across c)
    ∧ Forall (λ m, ∃ a b,
                da !! Mismatch.ip_address m = Some a
                ∧ db !! Mismatch.ip_address m = Some b
                ∧ Mismatch.cbs_master_rows m = Info.rows a
                ∧ Mismatch.poco_sheet_rows m = Info.rows b
                ∧ Mismatch.file1_id_tag m = Info.id_tag a
                ∧ Mismatch.file1_serial m = Info.serial_number a
                ∧ Mismatch.file2_id_tag m = Info.id_tag b
                ∧ Mismatch.file2_serial m = Info.serial_number b
                ∧ (Mismatch.file1_id_tag m ≠ Mismatch.file2_id_tag m
                   ∨ Mismatch.file1_serial m ≠ Mismatch.file2_serial m))
             (mismatches c).
Proof.
  intros Ha Hb. eexists. split; [by apply compare_csvs_Ok|]. simpl.
  assert ((Match.ip_address <$> omap (match_of da db) (elements (sa ∩ sb)))
          ++ (Mismatch.ip_address <$> omap (mismatch_of da db) (elements (sa ∩ sb)))
          ≡ₚ elements (sa ∩ sb)) as Hperm.
  { apply omap_match_of_keys. intros k Hk%elem_of_elements.
    apply load_csv_as_dict_Ok in Ha as (ra & _ & [-> _]%for_each_load_step).
    apply load_csv_as_dict_Ok in Hb as (rb & _ & [-> _]%for_each_load_step).
    rewrite <- !elem_of_dom. set_solver. }
  split_and!; [done| | |].
  - apply Permutation_length in Hperm.
    rewrite length_app, !length_fmap in Hperm. done.
  - apply Forall_forall. intros d (k & _ & Hd)%list_elem_of_omap.
    apply match_of_Some in Hd as (a & b & Hka & Hkb & [Ht Hs] & ->). simpl.
    exists a, b. split_and!; done.
  - apply Forall_forall. intros m (k & _ & Hm)%list_elem_of_omap.
    apply mismatch_of_Some in Hm as (a & b & Hka & Hkb & Hn & ->). simpl.
    exists a, b. split_and!; [done..|]. unfold agree in Hn.
    destruct (decide (Info.id_tag a = Info.id_tag b)); [right|left]; tauto.
Qed.

(** X12 — A sheet compared with itself has no key of one side only and no
    conflict, and every key of the sheet is an exact match. *)
Theorem compare_csvs_self fs filename d s :
  load_csv_as_dict fs filename = Ok (d, s) →
  ∃ c,
    compare_csvs fs filename filename = Ok c
    ∧ cbs_only_ips c = ∅ ∧ poco_only_ips c = ∅
    ∧ mismatches c = []
    ∧ Match.ip_address <$> duplicates_across c ≡ₚ elements s.
Proof.
  intros Hd. eexists. split; [by apply compare_csvs_Ok|]. simpl.
  assert (s ∩ s = s) as -> by set_solver.
  assert (omap (mismatch_of d d) (elements s) = []) as Hnone.
  { rewrite (omap_ext_fun _ (λ _, None)).
    - by induction (elements s).
    - intros k. unfold mismatch_of. destruct (d !! k); simpl; [|done].
      by rewrite decide_True by (by split). }
  split_and!; [set_solver|set_solver|done|].
  pose proof (omap_match_of_keys d d (elements s)) as Hperm.
  rewrite Hnone, app_nil_r in Hperm. apply Hperm.
  intros k Hk%elem_of_elements.
  apply load_csv_as_dict_Ok in Hd as (r & _ & [-> _]%for_each_load_step).
  by apply elem_of_dom in Hk.
Qed.

(** X13 — Two sheets without a common key have no exact match and no conflict,
    and each only-in-one-sheet set is the whole key set of its sheet. *)
Theorem compare_csvs_disjoint fs name1 name2 da sa db sb :
  load_csv_as_dict fs name1 = Ok (da, sa) →
  load_csv_as_dict fs name2 = Ok (db, sb) →
  sa ∩ sb = ∅ →
  ∃ c,
    compare_csvs fs name1 name2 = Ok c
    ∧ duplicates_across c = [] ∧ mismatches c = []
    ∧ cbs_only_ips c = sa ∧ poco_only_ips c = sb.
Proof.
  intros Ha Hb Hdisj. eexists. split; [by apply compare_csvs_Ok|]. simpl.
  rewrite Hdisj, elements_empty. split_and!; [done|done|set_solver..].
Qed.

(** X14 — The comparison returns exactly when both sheets load.  Otherwise it
    raises the exception of loading the first sheet, or, when the first sheet
    loads, that of loading the second; the loop over the common keys raises
    nothing. *)
Theorem compare_csvs_errors fs name1 name2 :
  ((∃ c, compare_csvs fs name1 name2 = Ok c) ↔
   (∃ state, load_csv_as_dict fs name1 = Ok state)
   ∧ (∃ state, load_csv_as_dict fs name2 = Ok state))
  ∧ ∀ e, compare_csvs fs name1 name2 = Raise e ↔
      load_csv_as_dict fs name1 = Raise e
      ∨ ((∃ state, load_csv_as_dict fs name1 = Ok state)
         ∧ load_csv_as_dict fs name2 = Raise e).
Proof.
  destruct (load_csv_as_dict fs name1) as [[da sa]|e1] eqn:H1.
  - destruct (load_csv_as_dict fs name2) as [[db sb]|e2] eqn:H2.
    + rewrite (compare_csvs_Ok _ _ _ _ _ _ _ H1 H2). split.
      * split; [eauto|]. intros _. eauto.
      * intros e. split; [done|]. by intros [?|[_ ?]].
    + unfold compare_csvs. rewrite H1, H2. simpl. split.
      * split; [by intros [? ?]|]. by intros [_ [? ?]].
      * intros e. split; [intros [= ->]; eauto|]. by intros [?|[_ [= ->]]].
  - unfold compare_csvs. rewrite H1. simpl. split.
    + split; [by intros [? ?]|]. by intros [[? ?] _].
    + intros e. split; [intros [= ->]; by left|].
      by intros [[= ->]|[[? ?] _]].
Qed.

(** ** The report *)

Lemma for_print_fmt {A} (line : A → io unit) (fmt : A → string) l :
  (∀ x out, line x out = (out ++ [fmt x], Ok tt)) →
  ∀ out, for_print line l out = (out ++ (fmt <$> l), Ok tt).
Proof.
  intros Hline. induction l as [|x l IH]; intros out.
  - simpl. by rewrite app_nil_r.
  - cbn [for_print]. rewrite (io_bind_Ok _ _ _ _ _ (Hline x out)), IH.
    by rewrite <- app_assoc.
Qed.

Lemma section_fmt {A} title (items : list A) line fmt fallback :
  (∀ x out, line x out = (out ++ [fmt x], Ok tt)) →
  ∀ out, section title items line fallback out
         = (out ++ section_text title items fmt fallback, Ok tt).
Proof.
  intros Hline out. unfold section, section_text.
  rewrite (io_bind_Ok (print title) _ out (out ++ [title]) tt eq_refl).
  destruct items as [|x items].
  - unfold print. by rewrite <- app_assoc.
  - rewrite (for_print_fmt line fmt (x :: items) Hline). by rewrite <- app_assoc.
Qed.

(** The output of a run whose three calls return. *)
Lemma run_lines fs d1 d2 c :
  find_duplicate_ips_in_csv fs file1 = Ok d1 →
  find_duplicate_ips_in_csv fs file2 = Ok d2 →
  compare_csvs fs file1 file2 = Ok c →
  ∃ fmt_duplicate fmt_match fmt_mismatch,
    run fs =
    (section_text "=== DUPLICATE IPs *WITHIN* CBS MASTER ===" d1 fmt_duplicate
       "No duplicate IPs found within CBS Master."
     ++ section_text (String newline "=== DUPLICATE IPs *WITHIN* POCO SHEET ===")
          d2 fmt_duplicate "No duplicate IPs found within Poco sheet."
     ++ section_text
          (String newline "=== IPs IN CBS MASTER BUT *NOT* IN POCO SHEET ===")
          (sorted (cbs_only_ips c)) (λ ip, "IP: " +:+ ip)
          "No IPs are exclusive to CBS Master."
     ++ section_text
          (String newline "=== IPs IN POCO SHEET BUT *NOT* IN CBS MASTER ===")
          (sorted (poco_only_ips c)) (λ ip, "IP: " +:+ ip)
          "No IPs are exclusive to Poco sheet."
     ++ section_text
          (String newline "=== CROSS-FILE EXACT MATCHES (SAME IP, SAME ID, SAME SERIAL) ===")
          (duplicates_across c) fmt_match "No exact matches across files."
     ++ section_text
          (String newline "=== CROSS-FILE POTENTIAL CONFLICTS (SAME IP, DIFFERENT ID OR SERIAL) ===")
          (mismatches c) fmt_mismatch "No mismatches across files.",
     Ok tt).
Proof.
  intros H1 H2 H3. unfold run, main. rewrite H1, H2, H3.
  rewrite (io_bind_Ok (call (Ok d1)) _ [] [] d1 eq_refl).
  rewrite (io_bind_Ok (call (Ok d2)) _ [] [] d2 eq_refl).
  rewrite (io_bind_Ok (call (Ok c)) _ [] [] c eq_refl).
  pose (fmt_of := λ {A} (line : A → io unit) (x : A), default "" (head (line x []).1)).
  assert (∀ x out, print_duplicate x out = (out ++ [fmt_of _ print_duplicate x], Ok tt))
    as Hd by (by intros [ip rows] out).
  assert (∀ x out, print_ip x out = (out ++ ["IP: " +:+ x], Ok tt)) as Hi by done.
  assert (∀ x out, print_match x out = (out ++ [fmt_of _ print_match x], Ok tt))
    as Hm by done.
  assert (∀ x out, print_mismatch x out = (out ++ [fmt_of _ print_mismatch x], Ok tt))
    as Hmm by done.
  exists (fmt_of _ print_duplicate), (fmt_of _ print_match), (fmt_of _ print_mismatch).
  rewrite (io_bind_Ok _ _ _ _ _ (section_fmt _ d1 _ _ _ Hd _)).
  rewrite (io_bind_Ok _ _ _ _ _ (section_fmt _ d2 _ _ _ Hd _)).
  rewrite (io_bind_Ok _ _ _ _ _ (section_fmt _ (sorted (cbs_only_ips c)) _ _ _ Hi _)).
  rewrite (io_bind_Ok _ _ _ _ _ (section_fmt _ (sorted (poco_only_ips c)) _ _ _ Hi _)).
  rewrite (io_bind_Ok _ _ _ _ _ (section_fmt _ (duplicates_across c) _ _ _ Hm _)).
  rewrite (section_fmt _ (mismatches c) _ _ _ Hmm).
  f_equal. by rewrite <- !app_assoc.
Qed.

Lemma section_text_length {A} title (items : list A) fmt fallback :
  ∃ lines, section_text title items fmt fallback = title :: lines
           ∧ length lines = max 1 (length items).
Proof.
  unfold section_text. eexists. split; [done|].
  destruct items as [|x items]; [done|]. rewrite length_fmap. simpl. lia.
Qed.

Lemma sorted_length ips : length (sorted ips) = size ips.
Proof. unfold sorted. by rewrite merge_sort_Permutation. Qed.

Lemma sorted_spec ips :
  Sorted String.le (sorted ips) ∧ NoDup (sorted ips) ∧ ∀ k, k ∈ sorted ips ↔ k ∈ ips.
Proof.
  unfold sorted. split_and!.
  - apply (Sorted_merge_sort String.le).
  - rewrite merge_sort_Permutation. apply NoDup_elements.
  - intros k. rewrite merge_sort_Permutation. apply elem_of_elements.
Qed.




(** ** Fatal sources *)

Lemma raises_fatal fs filename :
  raises (load_csv_as_dict fs filename) → fatal fs filename.
Proof.
  unfold load_csv_as_dict. intros [e He].
  destruct (fs filename) as [[rows err]|e0] eqn:Hfs; simpl in He.
  - apply for_rows_Raise in He as [He|[_ ->]].
    + apply for_each_load_step_Raise in He as (pre & r & post & -> & _ & Hr).
      apply (fatal_row _ _ _ _ r e Hfs); [|done].
      apply elem_of_app. right. by left.
    + by apply (fatal_read _ _ rows e).
  - by apply (fatal_open _ _ e0).
Qed.

Lemma fatal_dec fs filename : fatal fs filename ∨ ¬ fatal fs filename.
Proof.
  destruct (result_cases (load_csv_as_dict fs filename)) as [[st Hst]|H].
  - right. intros [e He]%fatal_raises. congruence.
  - left. by apply raises_fatal.
Qed.

Lemma fatal_cases fs :
  (fatal fs file1 ∨ fatal fs file2) ∨ (¬ fatal fs file1 ∧ ¬ fatal fs file2).
Proof.
  destruct (fatal_dec fs file1), (fatal_dec fs file2); tauto.
Qed.

(** X17 — The sources on which the loader raises are the fatal ones: those that
    cannot be opened, those whose reading fails, and those with a data row
    that lacks a cell the loader looks up.  The detector raises on fatal
    sources only. *)
Theorem load_csv_as_dict_fatal fs filename :
  (raises (load_csv_as_dict fs filename) ↔ fatal fs filename)
  ∧ (raises (find_duplicate_ips_in_csv fs filename) → fatal fs filename).
Proof.
  split; [split; [apply raises_fatal|apply fatal_raises]|].
  intros Hdup. apply raises_fatal.
  destruct (result_cases (load_csv_as_dict fs filename)) as [[st Hst]|H]; [|done].
  apply load_csv_as_dict_Ok in Hst as (reader & Hfs & Hst).
  apply for_each_load_step_loadable, loadable_keyed in Hst.
  destruct (for_each_find_duplicate_step_keyed reader Hst) as [d Hd].
  destruct Hdup as [e He]. exfalso.
  assert (find_duplicate_ips_in_csv fs filename
          = Ok (filter (λ entry, 1 < length entry.2) d)) as Hok
    by (apply find_duplicate_ips_in_csv_Ok; by exists reader, d).
  congruence.
Qed.



End script.

(** * The two functions on 7-bit text

    [ascii_strip] and [ascii_upper] have the properties of [str.strip] and
    [str.upper] that the statements above use. *)

(** A property of characters holds of all of them when it holds of the 256
    character codes. *)
Lemma ascii_enum (c : ascii) : c ∈ ascii_of_nat <$> seq 0 256.
Proof.
  apply list_elem_of_fmap. exists (nat_of_ascii c). split.
  - by rewrite ascii_nat_embedding.
  - apply elem_of_seq. pose proof (nat_ascii_bounded c). lia.
Qed.

Lemma ascii_forallb (p : ascii → bool) :
  forallb p (ascii_of_nat <$> seq 0 256) = true → ∀ c, p c = true.
Proof.
  intros H c. rewrite forallb_forall in H. apply H, list_elem_of_In, ascii_enum.
Qed.

Lemma ascii_upper_char_idemp c :
  ascii_upper_char (ascii_upper_char c) = ascii_upper_char c.
Proof.
  apply (bool_decide_eq_true_1 _). revert c. apply ascii_forallb. vm_compute. reflexivity.
Qed.

Lemma ascii_upper_idemp s : ascii_upper (ascii_upper s) = ascii_upper s.
Proof.
  induction s as [|c s IH]; simpl; [done|]. by rewrite ascii_upper_char_idemp, IH.
Qed.

Lemma is_lower_ascii_upper_char c : is_lower (ascii_upper_char c) = false.
Proof.
  apply (bool_decide_eq_true_1 _). revert c. apply ascii_forallb. vm_compute. reflexivity.
Qed.

Lemma has_lower_ascii_upper s : has_lower (ascii_upper s) = false.
Proof.
  induction s as [|c s IH]; [done|]. simpl. by rewrite is_lower_ascii_upper_char, IH.
Qed.

Lemma ascii_rstrip_cons_nonspace c s :
  ascii_is_space c = false → ascii_rstrip (String c s) = String c (ascii_rstrip s).
Proof. intros H. simpl. rewrite H. by destruct (ascii_rstrip s). Qed.

Lemma ascii_rstrip_idemp s : ascii_rstrip (ascii_rstrip s) = ascii_rstrip s.
Proof.
  induction s as [|c s IH]; simpl; [done|].
  destruct (ascii_rstrip s) as [|d r] eqn:E.
  - destruct (ascii_is_space c) eqn:Hc; simpl; [done|]. by rewrite Hc.
  - change (ascii_rstrip (String c (String d r)) = String c (String d r)).
    cbn [ascii_rstrip] in *. by rewrite IH.
Qed.

Lemma ascii_lstrip_head s :
  ascii_lstrip s = "" ∨ ∃ c t, ascii_lstrip s = String c t ∧ ascii_is_space c = false.
Proof.
  induction s as [|c s IH]; simpl; [by left|].
  destruct (ascii_is_space c) eqn:Hc; [done|]. right. eauto.
Qed.

(** Trimming a trimmed text changes nothing. *)
Lemma ascii_strip_idemp s : ascii_strip (ascii_strip s) = ascii_strip s.
Proof.
  unfold ascii_strip. destruct (ascii_lstrip_head s) as [->|(c & t & -> & Hc)]; [done|].
  rewrite (ascii_rstrip_cons_nonspace c t Hc). cbn [ascii_lstrip]. rewrite Hc.
  rewrite <- (ascii_rstrip_cons_nonspace c t Hc). apply ascii_rstrip_idemp.
Qed.

Lemma ascii_is_space_upper_char c : ascii_is_space (ascii_upper_char c) = ascii_is_space c.
Proof.
  apply (bool_decide_eq_true_1 _). revert c. apply ascii_forallb. vm_compute. reflexivity.
Qed.

Lemma ascii_lstrip_upper s : ascii_lstrip (ascii_upper s) = ascii_upper (ascii_lstrip s).
Proof.
  induction s as [|c s IH]; [done|]. simpl. rewrite ascii_is_space_upper_char.
  by destruct (ascii_is_space c).
Qed.

Lemma ascii_rstrip_upper s : ascii_rstrip (ascii_upper s) = ascii_upper (ascii_rstrip s).
Proof.
  induction s as [|c s IH]; [done|]. simpl. rewrite IH, ascii_is_space_upper_char.
  destruct (ascii_rstrip s); simpl; [|done]. by destruct (ascii_is_space c).
Qed.

(** Trimming and upper-casing commute. *)
Lemma ascii_strip_upper s : ascii_strip (ascii_upper s) = ascii_upper (ascii_strip s).
Proof. unfold ascii_strip. by rewrite ascii_lstrip_upper, ascii_rstrip_upper. Qed.

(** * The properties on example sheets *)

Lemma keyed_sheet_duplicate : keyed sheet_duplicate.
Proof. repeat constructor; eexists; vm_compute; reflexivity. Qed.

Lemma loadable_sheet_duplicate : loadable ascii_strip sheet_duplicate.
Proof. repeat constructor; try (eexists; vm_compute; reflexivity). Qed.

Lemma loadable_sheet_cbs : loadable ascii_strip sheet_cbs.
Proof. repeat constructor; try (eexists; vm_compute; reflexivity). Qed.

Lemma loadable_sheet_poco : loadable ascii_strip sheet_poco.
Proof. repeat constructor; try (eexists; vm_compute; reflexivity). Qed.

Lemma load_sheet_cbs :
  load_csv_as_dict ascii_strip ascii_upper (sheets sheet_cbs sheet_poco) file1
  = Ok ((index_of ascii_strip ascii_upper sheet_cbs).1,
        (index_of ascii_strip ascii_upper sheet_cbs).2).
Proof. apply load_csv_as_dict_index_of; [reflexivity|exact loadable_sheet_cbs]. Qed.

Lemma load_sheet_poco :
  load_csv_as_dict ascii_strip ascii_upper (sheets sheet_cbs sheet_poco) file2
  = Ok ((index_of ascii_strip ascii_upper sheet_poco).1,
        (index_of ascii_strip ascii_upper sheet_poco).2).
Proof. apply load_csv_as_dict_index_of; [reflexivity|exact loadable_sheet_poco]. Qed.

Lemma find_duplicate_ips_in_csv_positions_witness :
  sheets sheet_duplicate [] file1 = Ok (Reader sheet_duplicate None)
  ∧ keyed sheet_duplicate
  ∧ ∃ dups, find_duplicate_ips_in_csv ascii_strip (sheets sheet_duplicate []) file1 = Ok dups
      ∧ NoDup dups.*1
      ∧ (∀ k ps, (k, ps) ∈ dups ↔
                 k ≠ "" ∧ ps = positions_of ascii_strip k sheet_duplicate ∧ 2 ≤ length ps)
      ∧ ascii_strip "10.0.0.1" = "10.0.0.1"
      ∧ dups = [("10.0.0.1", [2; 3])].
Proof.
  split; [reflexivity|]. split; [exact keyed_sheet_duplicate|].
  destruct (proj1 (find_duplicate_ips_in_csv_positions ascii_strip ascii_upper)
              (sheets sheet_duplicate []) file1 sheet_duplicate eq_refl
              keyed_sheet_duplicate) as (dups & Hdups & Hnd & Hin).
  exists dups. split_and!; [exact Hdups|exact Hnd|exact Hin|reflexivity|].
  destruct (proj2 (find_duplicate_ips_in_csv_positions ascii_strip ascii_upper) eq_refl)
    as [_ Hscenario].
  rewrite Hscenario in Hdups. by injection Hdups.
Defined.

Lemma load_csv_as_dict_entries_witness :
  sheets sheet_duplicate [] file1 = Ok (Reader sheet_duplicate None)
  ∧ loadable ascii_strip sheet_duplicate
  ∧ ∃ d s, load_csv_as_dict ascii_strip ascii_upper (sheets sheet_duplicate []) file1 = Ok (d, s)
    ∧ ∀ k info, d !! k = Some info →
        Info.rows info ≠ []
        ∧ StronglySorted lt (Info.rows info)
        ∧ ∃ n r tag serial,
            last (Info.rows info) = Some n
            ∧ 2 ≤ n ∧ sheet_duplicate !! (n - 2) = Some r
            ∧ text r "ID Tag" = Some tag
            ∧ text r "Serial Number" = Some serial
            ∧ Info.id_tag info = ascii_upper (ascii_strip tag)
            ∧ Info.serial_number info = ascii_upper (ascii_strip serial).
Proof.
  split; [reflexivity|]. split; [exact loadable_sheet_duplicate|].
  exact (load_csv_as_dict_entries ascii_strip ascii_upper (sheets sheet_duplicate [])
           file1 sheet_duplicate eq_refl loadable_sheet_duplicate).
Defined.

Lemma last_write_wins_witness :
  loadable ascii_strip sheet_cbs ∧ loadable ascii_strip sheet_poco
  ∧ ∃ da sa db sb c,
    load_csv_as_dict ascii_strip ascii_upper (sheets sheet_cbs sheet_poco) file1 = Ok (da, sa)
    ∧ load_csv_as_dict ascii_strip ascii_upper (sheets sheet_cbs sheet_poco) file2 = Ok (db, sb)
    ∧ compare_csvs ascii_strip ascii_upper (sheets sheet_cbs sheet_poco) file1 file2 = Ok c
    ∧ (∀ k, k ≠ "" → 1 < length (positions_of ascii_strip k sheet_cbs) →
         ∃ n r tag serial,
           last (occurrences ascii_strip k sheet_cbs) = Some (n, r)
           ∧ text r "ID Tag" = Some tag
           ∧ text r "Serial Number" = Some serial
           ∧ da !! k = Some (Info.Build (positions_of ascii_strip k sheet_cbs)
                                        (ascii_upper (ascii_strip tag)) (ascii_upper (ascii_strip serial))))
    ∧ (∀ k na ra nb rb,
         k ≠ "" →
         last (occurrences ascii_strip k sheet_cbs) = Some (na, ra) →
         last (occurrences ascii_strip k sheet_poco) = Some (nb, rb) →
         ∃ tag_a serial_a tag_b serial_b,
           text ra "ID Tag" = Some tag_a ∧ text ra "Serial Number" = Some serial_a
           ∧ text rb "ID Tag" = Some tag_b ∧ text rb "Serial Number" = Some serial_b
           ∧ (matches_for k c ≠ [] ↔
              ascii_upper (ascii_strip tag_a) = ascii_upper (ascii_strip tag_b)
              ∧ ascii_upper (ascii_strip serial_a) = ascii_upper (ascii_strip serial_b))
           ∧ (mismatches_for k c ≠ [] ↔
              ¬ (ascii_upper (ascii_strip tag_a) = ascii_upper (ascii_strip tag_b)
                 ∧ ascii_upper (ascii_strip serial_a) = ascii_upper (ascii_strip serial_b)))).
Proof.
  split; [exact loadable_sheet_cbs|]. split; [exact loadable_sheet_poco|].
  exact (last_write_wins ascii_strip ascii_upper (sheets sheet_cbs sheet_poco) file1 file2
           sheet_cbs sheet_poco eq_refl eq_refl
           loadable_sheet_cbs loadable_sheet_poco).
Defined.

Lemma compare_csvs_classifies_witness :
  (∀ s, ascii_upper (ascii_upper s) = ascii_upper s)
  ∧ (∀ s, has_lower (ascii_upper s) = false)
  ∧ loadable ascii_strip sheet_cbs ∧ loadable ascii_strip sheet_poco
  ∧ ∃ da sa db sb c,
    load_csv_as_dict ascii_strip ascii_upper (sheets sheet_cbs sheet_poco) file1 = Ok (da, sa)
    ∧ load_csv_as_dict ascii_strip ascii_upper (sheets sheet_cbs sheet_poco) file2 = Ok (db, sb)
    ∧ compare_csvs ascii_strip ascii_upper (sheets sheet_cbs sheet_poco) file1 file2 = Ok c
    ∧ ∀ k, k ∈ sa ∩ sb →
        ∃ ia ib,
          da !! k = Some ia ∧ db !! k = Some ib
          ∧ ascii_upper (Info.id_tag ia) = Info.id_tag ia
          ∧ ascii_upper (Info.serial_number ia) = Info.serial_number ia
          ∧ ascii_upper (Info.id_tag ib) = Info.id_tag ib
          ∧ ascii_upper (Info.serial_number ib) = Info.serial_number ib
          ∧ if eq_ignore_case (Info.id_tag ia) (Info.id_tag ib)
               && eq_ignore_case (Info.serial_number ia) (Info.serial_number ib)
            then
              matches_for k c
              = [Match.Build k (Info.rows ia) (Info.rows ib)
                   (Info.id_tag ia) (Info.serial_number ia)]
              ∧ mismatches_for k c = []
            else
              matches_for k c = []
              ∧ mismatches_for k c
                = [Mismatch.Build k (Info.rows ia) (Info.rows ib)
                     (Info.id_tag ia) (Info.serial_number ia)
                     (Info.id_tag ib) (Info.serial_number ib)].
Proof.
  split; [exact ascii_upper_idemp|]. split; [exact has_lower_ascii_upper|].
  split; [exact loadable_sheet_cbs|]. split; [exact loadable_sheet_poco|].
  exact (compare_csvs_classifies ascii_strip ascii_upper (sheets sheet_cbs sheet_poco)
           file1 file2 sheet_cbs sheet_poco ascii_upper_idemp has_lower_ascii_upper
           eq_refl eq_refl loadable_sheet_cbs loadable_sheet_poco).
Defined.

(** The comparison of the two example sheets: tags that differ in case only
    give an exact match, different serials a conflict, blank tags and serials
    an exact match; the keys of one sheet only are in its set alone. *)
Example compare_csvs_sheets :
  ∃ c, compare_csvs ascii_strip ascii_upper (sheets sheet_cbs sheet_poco) file1 file2 = Ok c
    ∧ matches_for "10.0.0.5" c = [Match.Build "10.0.0.5" [5] [2] "ABC" "111"]
    ∧ mismatches_for "10.0.0.5" c = []
    ∧ matches_for "10.0.0.9" c = []
    ∧ mismatches_for "10.0.0.9" c
      = [Mismatch.Build "10.0.0.9" [6] [3] "A1" "S1" "A1" "S9"]
    ∧ matches_for "10.0.0.1" c = [Match.Build "10.0.0.1" [2; 3] [5] "X2" "S2"]
    ∧ matches_for "10.0.0.7" c = [Match.Build "10.0.0.7" [8] [4] "" ""]
    ∧ sorted (cbs_only_ips c) = ["192.168.1.1"; "printer-a"]
    ∧ sorted (poco_only_ips c) = ["PRINTER-A"]
    ∧ length (duplicates_across c) = 3 ∧ length (mismatches c) = 1.
Proof. eexists. split; [vm_compute; reflexivity|]. vm_compute. done. Qed.

Lemma only_ips_partition_witness :
  loadable ascii_strip sheet_cbs ∧ loadable ascii_strip sheet_poco
  ∧ ∃ da sa db sb c,
    load_csv_as_dict ascii_strip ascii_upper (sheets sheet_cbs sheet_poco) file1 = Ok (da, sa)
    ∧ load_csv_as_dict ascii_strip ascii_upper (sheets sheet_cbs sheet_poco) file2 = Ok (db, sb)
    ∧ compare_csvs ascii_strip ascii_upper (sheets sheet_cbs sheet_poco) file1 file2 = Ok c
    ∧ (∀ k, k ∈ sa ↔ k ≠ "" ∧ ∃ r, r ∈ sheet_cbs ∧ key_of ascii_strip r = Some k)
    ∧ (∀ k, k ∈ sb ↔ k ≠ "" ∧ ∃ r, r ∈ sheet_poco ∧ key_of ascii_strip r = Some k)
    ∧ cbs_only_ips c = sa ∖ sb
    ∧ poco_only_ips c = sb ∖ sa
    ∧ cbs_only_ips c ∩ poco_only_ips c = ∅
    ∧ cbs_only_ips c ∪ poco_only_ips c ∪ (sa ∩ sb) = sa ∪ sb.
Proof.
  split; [exact loadable_sheet_cbs|]. split; [exact loadable_sheet_poco|].
  exact (only_ips_partition ascii_strip ascii_upper (sheets sheet_cbs sheet_poco) file1 file2
           sheet_cbs sheet_poco eq_refl eq_refl
           loadable_sheet_cbs loadable_sheet_poco).
Defined.

Lemma blank_tags_match_witness :
  ∃ da sa db sb ia ib,
    load_csv_as_dict ascii_strip ascii_upper (sheets sheet_cbs sheet_poco) file1 = Ok (da, sa)
    ∧ load_csv_as_dict ascii_strip ascii_upper (sheets sheet_cbs sheet_poco) file2 = Ok (db, sb)
    ∧ da !! "10.0.0.7" = Some ia ∧ db !! "10.0.0.7" = Some ib
    ∧ Info.id_tag ia = "" ∧ Info.serial_number ia = ""
    ∧ Info.id_tag ib = "" ∧ Info.serial_number ib = ""
    ∧ ∃ c, compare_csvs ascii_strip ascii_upper (sheets sheet_cbs sheet_poco) file1 file2 = Ok c
        ∧ matches_for "10.0.0.7" c
          = [Match.Build "10.0.0.7" (Info.rows ia) (Info.rows ib) "" ""]
        ∧ mismatches_for "10.0.0.7" c = [].
Proof.
  exists (index_of ascii_strip ascii_upper sheet_cbs).1,
         (index_of ascii_strip ascii_upper sheet_cbs).2,
         (index_of ascii_strip ascii_upper sheet_poco).1,
         (index_of ascii_strip ascii_upper sheet_poco).2,
         (Info.Build [8] "" ""), (Info.Build [4] "" "").
  assert ((index_of ascii_strip ascii_upper sheet_cbs).1 !! "10.0.0.7"
          = Some (Info.Build [8] "" "")) as Hia by (vm_compute; reflexivity).
  assert ((index_of ascii_strip ascii_upper sheet_poco).1 !! "10.0.0.7"
          = Some (Info.Build [4] "" "")) as Hib by (vm_compute; reflexivity).
  split_and!; [exact load_sheet_cbs|exact load_sheet_poco|exact Hia|exact Hib
              |reflexivity..|].
  exact (blank_tags_match ascii_strip ascii_upper _ _ _ _ _ _ _ _ _ _
           load_sheet_cbs load_sheet_poco Hia Hib eq_refl eq_refl eq_refl eq_refl).
Defined.

(** The report on the two example sheets; the exact matches come in the order
    in which [elements] lists the common keys. *)
Example run_sheets :
  run ascii_strip ascii_upper (sheets sheet_cbs sheet_poco) =
  (["=== DUPLICATE IPs *WITHIN* CBS MASTER ===";
    "IP: 10.0.0.1         Rows: 2, 3";
    String newline "=== DUPLICATE IPs *WITHIN* POCO SHEET ===";
    "No duplicate IPs found within Poco sheet.";
    String newline "=== IPs IN CBS MASTER BUT *NOT* IN POCO SHEET ===";
    "IP: 192.168.1.1";
    "IP: printer-a";
    String newline "=== IPs IN POCO SHEET BUT *NOT* IN CBS MASTER ===";
    "IP: PRINTER-A";
    String newline "=== CROSS-FILE EXACT MATCHES (SAME IP, SAME ID, SAME SERIAL) ===";
    "IP: 10.0.0.7         CBS Rows: 8       Poco Rows: 4       ID Tag:             Serial: ";
    "IP: 10.0.0.5         CBS Rows: 5       Poco Rows: 2       ID Tag: ABC         Serial: 111";
    "IP: 10.0.0.1         CBS Rows: 2, 3    Poco Rows: 5       ID Tag: X2          Serial: S2";
    String newline "=== CROSS-FILE POTENTIAL CONFLICTS (SAME IP, DIFFERENT ID OR SERIAL) ===";
    "IP: 10.0.0.9         CBS Rows: 6       ID Tag: A1          Serial: S1            Poco Rows: 3       ID Tag: A1          Serial: S9"],
   Ok tt).
Proof. vm_compute. reflexivity. Qed.

Lemma duplicate_positions_bound_witness :
  sheets sheet_duplicate [] file1 = Ok (Reader sheet_duplicate None)
  ∧ keyed sheet_duplicate
  ∧ ∃ dups, find_duplicate_ips_in_csv ascii_strip (sheets sheet_duplicate []) file1 = Ok dups
    ∧ total_positions dups ≤ length (filter (nonblank ascii_strip) sheet_duplicate)
    ∧ (total_positions dups = length (filter (nonblank ascii_strip) sheet_duplicate) →
       ∀ r k, r ∈ sheet_duplicate → key_of ascii_strip r = Some k → k ≠ "" →
              2 ≤ length (positions_of ascii_strip k sheet_duplicate)).
Proof.
  split; [reflexivity|]. split; [exact keyed_sheet_duplicate|].
  exact (duplicate_positions_bound ascii_strip ascii_upper (sheets sheet_duplicate []) file1
           sheet_duplicate eq_refl keyed_sheet_duplicate).
Defined.

Lemma blank_keys_skipped_witness :
  (∀ s, ascii_strip (ascii_strip s) = ascii_strip s)
  ∧ loadable ascii_strip sheet_cbs ∧ loadable ascii_strip sheet_poco
  ∧ ∃ dups_a dups_b da sa db sb c,
    find_duplicate_ips_in_csv ascii_strip (sheets sheet_cbs sheet_poco) file1 = Ok dups_a
    ∧ find_duplicate_ips_in_csv ascii_strip (sheets sheet_cbs sheet_poco) file2 = Ok dups_b
    ∧ load_csv_as_dict ascii_strip ascii_upper (sheets sheet_cbs sheet_poco) file1 = Ok (da, sa)
    ∧ load_csv_as_dict ascii_strip ascii_upper (sheets sheet_cbs sheet_poco) file2 = Ok (db, sb)
    ∧ compare_csvs ascii_strip ascii_upper (sheets sheet_cbs sheet_poco) file1 file2 = Ok c
    ∧ (∀ k, ascii_strip k = "" →
         k ∉ dups_a.*1 ∧ k ∉ dups_b.*1
         ∧ da !! k = None ∧ db !! k = None ∧ k ∉ sa ∧ k ∉ sb
         ∧ k ∉ cbs_only_ips c ∧ k ∉ poco_only_ips c
         ∧ matches_for k c = [] ∧ mismatches_for k c = [])
    ∧ (∀ i r, sheet_cbs !! i = Some r → key_of ascii_strip r = Some "" →
         (∀ k ps, (k, ps) ∈ dups_a → 2 + i ∉ ps)
         ∧ (∀ k info, da !! k = Some info → 2 + i ∉ Info.rows info))
    ∧ (∀ i r, sheet_poco !! i = Some r → key_of ascii_strip r = Some "" →
         (∀ k ps, (k, ps) ∈ dups_b → 2 + i ∉ ps)
         ∧ (∀ k info, db !! k = Some info → 2 + i ∉ Info.rows info)).
Proof.
  split; [exact ascii_strip_idemp|].
  split; [exact loadable_sheet_cbs|]. split; [exact loadable_sheet_poco|].
  exact (blank_keys_skipped ascii_strip ascii_upper (sheets sheet_cbs sheet_poco)
           file1 file2 sheet_cbs sheet_poco ascii_strip_idemp eq_refl eq_refl
           loadable_sheet_cbs loadable_sheet_poco).
Defined.

Lemma keys_case_sensitive_witness :
  loadable ascii_strip sheet_cbs ∧ loadable ascii_strip sheet_poco
  ∧ ∃ dups da sa db sb c,
    find_duplicate_ips_in_csv ascii_strip (sheets sheet_cbs sheet_poco) file1 = Ok dups
    ∧ load_csv_as_dict ascii_strip ascii_upper (sheets sheet_cbs sheet_poco) file1 = Ok (da, sa)
    ∧ load_csv_as_dict ascii_strip ascii_upper (sheets sheet_cbs sheet_poco) file2 = Ok (db, sb)
    ∧ compare_csvs ascii_strip ascii_upper (sheets sheet_cbs sheet_poco) file1 file2 = Ok c
    ∧ (∀ k, k ∈ sa ↔ k ≠ "" ∧ ∃ r, r ∈ sheet_cbs ∧ key_of ascii_strip r = Some k)
    ∧ (∀ k, k ∈ sb ↔ k ≠ "" ∧ ∃ r, r ∈ sheet_poco ∧ key_of ascii_strip r = Some k)
    ∧ ∀ k k', k ≠ k' →
        (∀ i r, sheet_cbs !! i = Some r → key_of ascii_strip r = Some k' →
           (∀ ps, (k, ps) ∈ dups → 2 + i ∉ ps)
           ∧ (∀ info, da !! k = Some info → 2 + i ∉ Info.rows info))
        ∧ (k ∈ sa → k' ∈ sb → k ∉ sb →
           k ∈ cbs_only_ips c ∧ matches_for k c = [] ∧ mismatches_for k c = [])
        ∧ (k ∈ sb → k' ∈ sa → k ∉ sa →
           k ∈ poco_only_ips c ∧ matches_for k c = [] ∧ mismatches_for k c = []).
Proof.
  split; [exact loadable_sheet_cbs|]. split; [exact loadable_sheet_poco|].
  exact (keys_case_sensitive ascii_strip ascii_upper (sheets sheet_cbs sheet_poco) file1 file2
           sheet_cbs sheet_poco eq_refl eq_refl
           loadable_sheet_cbs loadable_sheet_poco).
Defined.

(** Two rows of one sheet whose keys differ in case only are no duplicates, and
    two such keys in different sheets are each in one sheet only. *)
Example case_sensitive_keys :
  "printer-a" ≠ "PRINTER-A"
  ∧ eq_ignore_case "printer-a" "PRINTER-A" = true
  ∧ ascii_upper "printer-a" = ascii_upper "PRINTER-A"
  ∧ find_duplicate_ips_in_csv ascii_strip
      (sheets [mkrow "printer-a" "P" "Q"; mkrow "PRINTER-A" "P" "Q"] []) file1
    = Ok []
  ∧ ∃ c, compare_csvs ascii_strip ascii_upper (sheets [mkrow "printer-a" "P" "Q"] [mkrow "PRINTER-A" "P" "Q"])
           file1 file2 = Ok c
      ∧ elements (cbs_only_ips c) = ["printer-a"]
      ∧ elements (poco_only_ips c) = ["PRINTER-A"]
      ∧ duplicates_across c = [] ∧ mismatches c = [].
Proof.
  split; [done|]. split; [reflexivity|]. split; [reflexivity|].
  split; [vm_compute; reflexivity|].
  eexists. split; [vm_compute; reflexivity|]. vm_compute. done.
Qed.


(** ** A run that raises, and a run with a column missing *)

Lemma fatal_sheet_untagged :
  fatal ascii_strip (sheets sheet_untagged sheet_poco) file1.
Proof.
  apply (fatal_row ascii_strip _ _ sheet_untagged None
           (dict_row ["IP Address"; "Serial Number"] ["10.0.0.1"; "s1"] ∅)
           (KeyError "ID Tag")).
  - reflexivity.
  - apply (list_elem_of_lookup_2 _ 0). reflexivity.
  - apply row_raises_tag_missing; [|reflexivity].
    unfold nonblank. vm_compute. discriminate.
Qed.


(** The run on the sheet without the "ID Tag" column ends with the [KeyError]
    of the loader: the detector has read both sheets, and nothing is
    printed. *)
Example run_sheet_untagged :
  find_duplicate_ips_in_csv ascii_strip (sheets sheet_untagged sheet_poco) file1 = Ok []
  ∧ find_duplicate_ips_in_csv ascii_strip (sheets sheet_untagged sheet_poco) file2 = Ok []
  ∧ run ascii_strip ascii_upper (sheets sheet_untagged sheet_poco)
    = ([], Raise (KeyError "ID Tag")).
Proof. split_and!; vm_compute; reflexivity. Qed.


(** ** The further properties on example sheets *)

Lemma keyed_sheet_cbs : keyed sheet_cbs.
Proof. repeat constructor; eexists; vm_compute; reflexivity. Qed.

Lemma find_duplicate_ips_in_csv_order_witness :
  keyed sheet_cbs
  ∧ ∃ dups,
      find_duplicate_ips_in_csv ascii_strip (sheets sheet_cbs sheet_poco) file1 = Ok dups
      ∧ (∀ k ps, (k, ps) ∈ dups → head ps = head (positions_of ascii_strip k sheet_cbs))
      ∧ StronglySorted lt (first_position <$> dups).
Proof.
  split; [exact keyed_sheet_cbs|].
  exact (find_duplicate_ips_in_csv_order ascii_strip ascii_upper
           (sheets sheet_cbs sheet_poco) file1 sheet_cbs eq_refl keyed_sheet_cbs).
Defined.

(** The rows of [sheet_duplicate] with other tags and serials. *)
Lemma same_key_column :
  Forall2 (λ r r' : row, r !! "IP Address" = r' !! "IP Address")
    sheet_duplicate [mkrow "10.0.0.1" "" ""; mkrow "10.0.0.1" "y" "z"].
Proof. repeat constructor. Qed.

Lemma find_duplicate_ips_in_csv_key_column_witness :
  Forall2 (λ r r' : row, r !! "IP Address" = r' !! "IP Address")
    sheet_duplicate [mkrow "10.0.0.1" "" ""; mkrow "10.0.0.1" "y" "z"]
  ∧ find_duplicate_ips_in_csv ascii_strip (sheets sheet_duplicate []) file1
    = find_duplicate_ips_in_csv ascii_strip
        (sheets [] [mkrow "10.0.0.1" "" ""; mkrow "10.0.0.1" "y" "z"]) file2.
Proof.
  split; [exact same_key_column|].
  exact (find_duplicate_ips_in_csv_key_column ascii_strip
           (sheets sheet_duplicate [])
           (sheets [] [mkrow "10.0.0.1" "" ""; mkrow "10.0.0.1" "y" "z"])
           file1 file2 sheet_duplicate
           [mkrow "10.0.0.1" "" ""; mkrow "10.0.0.1" "y" "z"]
           eq_refl eq_refl same_key_column).
Defined.

Lemma find_duplicate_ips_in_csv_index_witness :
  loadable ascii_strip sheet_cbs
  ∧ ∃ dups d s,
      find_duplicate_ips_in_csv ascii_strip (sheets sheet_cbs sheet_poco) file1 = Ok dups
      ∧ load_csv_as_dict ascii_strip ascii_upper (sheets sheet_cbs sheet_poco) file1
        = Ok (d, s)
      ∧ ∀ k ps, (k, ps) ∈ dups ↔
                ∃ info, d !! k = Some info ∧ Info.rows info = ps ∧ 1 < length ps.
Proof.
  split; [exact loadable_sheet_cbs|].
  exact (find_duplicate_ips_in_csv_index ascii_strip ascii_upper
           (sheets sheet_cbs sheet_poco) file1 sheet_cbs eq_refl loadable_sheet_cbs).
Defined.

Lemma load_csv_as_dict_find_duplicate_ips_in_csv_witness :
  load_csv_as_dict ascii_strip ascii_upper (sheets sheet_cbs sheet_poco) file1
  = Ok ((index_of ascii_strip ascii_upper sheet_cbs).1,
        (index_of ascii_strip ascii_upper sheet_cbs).2)
  ∧ ∃ dups,
      find_duplicate_ips_in_csv ascii_strip (sheets sheet_cbs sheet_poco) file1 = Ok dups.
Proof.
  split; [exact load_sheet_cbs|].
  exact (load_csv_as_dict_find_duplicate_ips_in_csv ascii_strip ascii_upper
           (sheets sheet_cbs sheet_poco) file1 _ load_sheet_cbs).
Defined.

Lemma load_csv_as_dict_rows_witness :
  loadable ascii_strip sheet_cbs
  ∧ ∃ d s,
      load_csv_as_dict ascii_strip ascii_upper (sheets sheet_cbs sheet_poco) file1
      = Ok (d, s)
      ∧ s = dom d
      ∧ ∀ k n, (∃ info, d !! k = Some info ∧ n ∈ Info.rows info) ↔
               k ≠ "" ∧ 2 ≤ n
               ∧ ∃ r, sheet_cbs !! (n - 2) = Some r ∧ key_of ascii_strip r = Some k.
Proof.
  split; [exact loadable_sheet_cbs|].
  exact (load_csv_as_dict_rows ascii_strip ascii_upper
           (sheets sheet_cbs sheet_poco) file1 sheet_cbs eq_refl loadable_sheet_cbs).
Defined.

Lemma load_csv_as_dict_normal_forms_witness :
  (∀ s, ascii_strip (ascii_strip s) = ascii_strip s)
  ∧ (∀ s, ascii_strip (ascii_upper s) = ascii_upper (ascii_strip s))
  ∧ (∀ s, has_lower (ascii_upper s) = false)
  ∧ loadable ascii_strip sheet_cbs
  ∧ ∃ d s,
      load_csv_as_dict ascii_strip ascii_upper (sheets sheet_cbs sheet_poco) file1
      = Ok (d, s)
      ∧ ∀ k info, d !! k = Some info →
          k ≠ "" ∧ ascii_strip k = k
          ∧ ascii_strip (Info.id_tag info) = Info.id_tag info
          ∧ has_lower (Info.id_tag info) = false
          ∧ ascii_strip (Info.serial_number info) = Info.serial_number info
          ∧ has_lower (Info.serial_number info) = false.
Proof.
  split; [exact ascii_strip_idemp|]. split; [exact ascii_strip_upper|].
  split; [exact has_lower_ascii_upper|]. split; [exact loadable_sheet_cbs|].
  exact (load_csv_as_dict_normal_forms ascii_strip ascii_upper
           (sheets sheet_cbs sheet_poco) file1 sheet_cbs
           ascii_strip_idemp ascii_strip_upper has_lower_ascii_upper
           eq_refl loadable_sheet_cbs).
Defined.

(** A row and the same row with white space around its cells and its tag in
    lower case. *)
Lemma same_cells_rows :
  Forall2 (same_cells ascii_strip ascii_upper)
    [mkrow "10.0.0.5" "ABC" "111"] [mkrow " 10.0.0.5 " "abc" " 111"].
Proof. repeat constructor. Qed.

Lemma loadable_row : loadable ascii_strip [mkrow "10.0.0.5" "ABC" "111"].
Proof. repeat constructor; try (eexists; vm_compute; reflexivity). Qed.

Lemma load_csv_as_dict_same_cells_witness :
  loadable ascii_strip [mkrow "10.0.0.5" "ABC" "111"]
  ∧ Forall2 (same_cells ascii_strip ascii_upper)
      [mkrow "10.0.0.5" "ABC" "111"] [mkrow " 10.0.0.5 " "abc" " 111"]
  ∧ load_csv_as_dict ascii_strip ascii_upper
      (sheets [mkrow "10.0.0.5" "ABC" "111"] []) file1
    = load_csv_as_dict ascii_strip ascii_upper
        (sheets [] [mkrow " 10.0.0.5 " "abc" " 111"]) file2.
Proof.
  split; [exact loadable_row|]. split; [exact same_cells_rows|].
  exact (load_csv_as_dict_same_cells ascii_strip ascii_upper
           (sheets [mkrow "10.0.0.5" "ABC" "111"] [])
           (sheets [] [mkrow " 10.0.0.5 " "abc" " 111"])
           file1 file2 [mkrow "10.0.0.5" "ABC" "111"] [mkrow " 10.0.0.5 " "abc" " 111"]
           eq_refl eq_refl loadable_row same_cells_rows).
Defined.

Lemma compare_csvs_sym_witness :
  ∃ da sa db sb,
    load_csv_as_dict ascii_strip ascii_upper (sheets sheet_cbs sheet_poco) file1
    = Ok (da, sa)
    ∧ load_csv_as_dict ascii_strip ascii_upper (sheets sheet_cbs sheet_poco) file2
      = Ok (db, sb)
    ∧ ∃ c c',
        compare_csvs ascii_strip ascii_upper (sheets sheet_cbs sheet_poco) file1 file2
        = Ok c
        ∧ compare_csvs ascii_strip ascii_upper (sheets sheet_cbs sheet_poco) file2 file1
          = Ok c'
        ∧ cbs_only_ips c' = poco_only_ips c
        ∧ poco_only_ips c' = cbs_only_ips c
        ∧ duplicates_across c' ≡ₚ swap_match <$> duplicates_across c
        ∧ mismatches c' ≡ₚ swap_mismatch <$> mismatches c.
Proof.
  exists (index_of ascii_strip ascii_upper sheet_cbs).1,
         (index_of ascii_strip ascii_upper sheet_cbs).2,
         (index_of ascii_strip ascii_upper sheet_poco).1,
         (index_of ascii_strip ascii_upper sheet_poco).2.
  split; [exact load_sheet_cbs|]. split; [exact load_sheet_poco|].
  exact (compare_csvs_sym ascii_strip ascii_upper _ _ _ _ _ _ _
           load_sheet_cbs load_sheet_poco).
Defined.

Lemma compare_csvs_records_witness :
  ∃ da sa db sb,
    load_csv_as_dict ascii_strip ascii_upper (sheets sheet_cbs sheet_poco) file1
    = Ok (da, sa)
    ∧ load_csv_as_dict ascii_strip ascii_upper (sheets sheet_cbs sheet_poco) file2
      = Ok (db, sb)
    ∧ ∃ c,
        compare_csvs ascii_strip ascii_upper (sheets sheet_cbs sheet_poco) file1 file2
        = Ok c
        ∧ (Match.ip_address <$> duplicates_across c)
          ++ (Mismatch.ip_address <$> mismatches c) ≡ₚ elements (sa ∩ sb)
        ∧ length (duplicates_across c) + length (mismatches c) = size (sa ∩ sb)
        ∧ Forall (λ d, ∃ a b,
                    da !! Match.ip_address d = Some a
                    ∧ db !! Match.ip_address d = Some b
                    ∧ Match.cbs_master_rows d = Info.rows a
                    ∧ Match.poco_sheet_rows d = Info.rows b
                    ∧ Match.id_tag d = Info.id_tag a
                    ∧ Match.id_tag d = Info.id_tag b
                    ∧ Match.serial_number d = Info.serial_number a
                    ∧ Match.serial_number d = Info.serial_number b)
                 (duplicates_across c)
        ∧ Forall (λ m, ∃ a b,
                    da !! Mismatch.ip_address m = Some a
                    ∧ db !! Mismatch.ip_address m = Some b
                    ∧ Mismatch.cbs_master_rows m = Info.rows a
                    ∧ Mismatch.poco_sheet_rows m = Info.rows b
                    ∧ Mismatch.file1_id_tag m = Info.id_tag a
                    ∧ Mismatch.file1_serial m = Info.serial_number a
                    ∧ Mismatch.file2_id_tag m = Info.id_tag b
                    ∧ Mismatch.file2_serial m = Info.serial_number b
                    ∧ (Mismatch.file1_id_tag m ≠ Mismatch.file2_id_tag m
                       ∨ Mismatch.file1_serial m ≠ Mismatch.file2_serial m))
                 (mismatches c).
Proof.
  exists (index_of ascii_strip ascii_upper sheet_cbs).1,
         (index_of ascii_strip ascii_upper sheet_cbs).2,
         (index_of ascii_strip ascii_upper sheet_poco).1,
         (index_of ascii_strip ascii_upper sheet_poco).2.
  split; [exact load_sheet_cbs|]. split; [exact load_sheet_poco|].
  exact (compare_csvs_records ascii_strip ascii_upper _ _ _ _ _ _ _
           load_sheet_cbs load_sheet_poco).
Defined.

Lemma compare_csvs_self_witness :
  ∃ d s,
    load_csv_as_dict ascii_strip ascii_upper (sheets sheet_cbs sheet_poco) file1
    = Ok (d, s)
    ∧ ∃ c,
        compare_csvs ascii_strip ascii_upper (sheets sheet_cbs sheet_poco) file1 file1
        = Ok c
        ∧ cbs_only_ips c = ∅ ∧ poco_only_ips c = ∅
        ∧ mismatches c = []
        ∧ Match.ip_address <$> duplicates_across c ≡ₚ elements s.
Proof.
  exists (index_of ascii_strip ascii_upper sheet_cbs).1,
         (index_of ascii_strip ascii_upper sheet_cbs).2.
  split; [exact load_sheet_cbs|].
  exact (compare_csvs_self ascii_strip ascii_upper _ _ _ _ load_sheet_cbs).
Defined.

(** Two sheets of one row each, with keys that differ in case only. *)
Lemma load_sheet_lower :
  load_csv_as_dict ascii_strip ascii_upper
    (sheets [mkrow "printer-a" "P" "Q"] [mkrow "PRINTER-A" "P" "Q"]) file1
  = Ok ((index_of ascii_strip ascii_upper [mkrow "printer-a" "P" "Q"]).1,
        (index_of ascii_strip ascii_upper [mkrow "printer-a" "P" "Q"]).2).
Proof.
  apply load_csv_as_dict_index_of; [reflexivity|].
  repeat constructor; try (eexists; vm_compute; reflexivity).
Qed.

Lemma load_sheet_upper :
  load_csv_as_dict ascii_strip ascii_upper
    (sheets [mkrow "printer-a" "P" "Q"] [mkrow "PRINTER-A" "P" "Q"]) file2
  = Ok ((index_of ascii_strip ascii_upper [mkrow "PRINTER-A" "P" "Q"]).1,
        (index_of ascii_strip ascii_upper [mkrow "PRINTER-A" "P" "Q"]).2).
Proof.
  apply load_csv_as_dict_index_of; [reflexivity|].
  repeat constructor; try (eexists; vm_compute; reflexivity).
Qed.

Lemma disjoint_sheets :
  (index_of ascii_strip ascii_upper [mkrow "printer-a" "P" "Q"]).2
  ∩ (index_of ascii_strip ascii_upper [mkrow "PRINTER-A" "P" "Q"]).2 = ∅.
Proof. vm_compute. reflexivity. Qed.

Lemma compare_csvs_disjoint_witness :
  ∃ da sa db sb,
    load_csv_as_dict ascii_strip ascii_upper
      (sheets [mkrow "printer-a" "P" "Q"] [mkrow "PRINTER-A" "P" "Q"]) file1
    = Ok (da, sa)
    ∧ load_csv_as_dict ascii_strip ascii_upper
        (sheets [mkrow "printer-a" "P" "Q"] [mkrow "PRINTER-A" "P" "Q"]) file2
      = Ok (db, sb)
    ∧ sa ∩ sb = ∅
    ∧ ∃ c,
        compare_csvs ascii_strip ascii_upper
          (sheets [mkrow "printer-a" "P" "Q"] [mkrow "PRINTER-A" "P" "Q"]) file1 file2
        = Ok c
        ∧ duplicates_across c = [] ∧ mismatches c = []
        ∧ cbs_only_ips c = sa ∧ poco_only_ips c = sb.
Proof.
  exists (index_of ascii_strip ascii_upper [mkrow "printer-a" "P" "Q"]).1,
         (index_of ascii_strip ascii_upper [mkrow "printer-a" "P" "Q"]).2,
         (index_of ascii_strip ascii_upper [mkrow "PRINTER-A" "P" "Q"]).1,
         (index_of ascii_strip ascii_upper [mkrow "PRINTER-A" "P" "Q"]).2.
  split; [exact load_sheet_lower|]. split; [exact load_sheet_upper|].
  split; [exact disjoint_sheets|].
  exact (compare_csvs_disjoint ascii_strip ascii_upper _ _ _ _ _ _ _
           load_sheet_lower load_sheet_upper disjoint_sheets).
Defined.

Lemma find_duplicate_sheet_cbs :
  find_duplicate_ips_in_csv ascii_strip (sheets sheet_cbs sheet_poco) file1
  = Ok [("10.0.0.1", [2; 3])].
Proof. vm_compute. reflexivity. Qed.

Lemma find_duplicate_sheet_poco :
  find_duplicate_ips_in_csv ascii_strip (sheets sheet_cbs sheet_poco) file2 = Ok [].
Proof. vm_compute. reflexivity. Qed.

Lemma compare_sheets :
  ∃ c, compare_csvs ascii_strip ascii_upper (sheets sheet_cbs sheet_poco) file1 file2
       = Ok c.
Proof. eexists. exact (compare_csvs_Ok _ _ _ _ _ _ _ _ _ load_sheet_cbs load_sheet_poco). Qed.



